(** * Waterfall layout of the image gallery (src/pages/Index.tsx)

    A shallow embedding of the layout code of the gallery page and of the two
    helpers around it (the dimension loader and the shuffle), with the
    properties of the layout proved over it.

    Numbers.  The source computes with JavaScript numbers, IEEE-754 binary64
    doubles.  Every pixel quantity of the layout is an integer far below
    2^53, where the double arithmetic of [+], [-], [*] and
    [Math.floor (a / b)] is exact, so these are integers of [Z] here.  The
    two quotients that are not integers, [img.naturalWidth /
    img.naturalHeight] and [imageWidth / image.aspectRatio], are rounded to
    the nearest double, a tie to the even significand ([Binary64.div]); a
    double is held as the rational it denotes.  [Math.round x] is
    [floor (x + 1/2)] (ties go up, as in JavaScript).  [Binary64.round] has
    no largest exponent: it is the rounding of the machine for every
    quotient of magnitude below 2^1023 ([round_nearest]), which covers every
    quotient of two pixel counts.  Arrays are lists with stdpp's lookup and
    insert. *)

From Stdlib Require Import ZArith QArith Qround Qabs Qpower Qreduction.
From Stdlib Require Import Lia Lqa String.
From Stdlib Require Import Permutation Sorted.
From stdpp Require Import base tactics option list.

Local Open Scope Z_scope.

(** ** JavaScript helpers used by the page *)

Module JS.

(** [Math.round]: the nearest integer, a tie rounded towards +infinity. *)
Definition Math_round (x : Q) : Z := Qfloor (x + (1 # 2)).

(** [Math.min (...values)]; [None] stands for the [Infinity] that the call
    returns on an empty array. *)
Definition Math_min (values : list Z) : option Z :=
  match values with
  | [] => None
  | x :: rest => Some (foldl Z.min x rest)
  end.

(** [Math.max (...values)]; [None] stands for [-Infinity]. *)
Definition Math_max (values : list Z) : option Z :=
  match values with
  | [] => None
  | x :: rest => Some (foldl Z.max x rest)
  end.

(** [array.indexOf (searchElement)]: the first index holding the element,
    [-1] when there is none. *)
Fixpoint indexOfFrom (searchElement : Z) (array : list Z) (fromIndex : Z) : Z :=
  match array with
  | [] => -1
  | x :: rest =>
      if x =? searchElement then fromIndex
      else indexOfFrom searchElement rest (fromIndex + 1)
  end.

Definition indexOf (array : list Z) (searchElement : Z) : Z :=
  indexOfFrom searchElement array 0.

(** [array[i]]; [None] is [undefined] (a negative or too large index). *)
Definition get (array : list Z) (i : Z) : option Z :=
  if i <? 0 then None else array !! Z.to_nat i.

(** [array[i] += v] at an index of the array.  At [-1] the statement sets
    a property that is no element, and the elements stay as they are; an
    index past the end is never produced by [indexOf]. *)
Definition addAt (array : list Z) (i : Z) (v : Z) : list Z :=
  match get array i with
  | Some old => <[Z.to_nat i := old + v]> array
  | None => array
  end.

(** [[a[i], a[j]] = [a[j], a[i]]] for two indices of the array: the right
    side is read first, then [a[i]] and [a[j]] are written in this order.
    The loop of [shuffleImages] only calls it with [j <= i < length]. *)
Definition swap {A : Type} (array : list A) (i j : nat) : list A :=
  match array !! i, array !! j with
  | Some ai, Some aj => <[j := ai]> (<[i := aj]> array)
  | _, _ => array
  end.

End JS.

(** ** JavaScript numbers: rounding to binary64

    A finite double is [m * 2^e] with [|m| < 2^53] and
    [-1074 <= e <= 971].  The result of an arithmetic operation is the exact
    result rounded to the nearest double, a tie to the one whose significand
    is even.  The exact values are rationals. *)

Module Binary64.

(** [2^e], also for a negative exponent. *)
Definition pow2 (e : Z) : Q := ((2 # 1) ^ e)%Q.

(** The exponent of the binade of a positive [x]:
    [2^(ilog2 x) <= x < 2^(ilog2 x + 1)]. *)
Definition ilog2 (x : Q) : Z :=
  let k := Z.log2 (Qnum x) - Z.log2 (Zpos (Qden x)) in
  if Qle_bool (pow2 k) x then k else k - 1.

(** The nearest integer, a tie to the even one. *)
Definition roundHalfEven (y : Q) : Z :=
  let f := Qfloor y in
  match (y - inject_Z f ?= 1 # 2)%Q with
  | Lt => f
  | Gt => f + 1
  | Eq => if Z.even f then f else f + 1
  end.

(** The exponent of the spacing of the doubles around a positive [x]: 53
    significant bits, and never below the subnormal spacing [2^-1074]. *)
Definition ulpExponent (x : Q) : Z := Z.max (ilog2 x - 52) (-1074).

(** A positive [x] rounded to a multiple of that spacing. *)
Definition roundPositive (x : Q) : Q :=
  (inject_Z (roundHalfEven (x / pow2 (ulpExponent x))) * pow2 (ulpExponent x))%Q.

(** Rounding is symmetric in the sign.  [Qred] makes the result depend on
    the value of the rational only, not on its representation. *)
Definition round (x : Q) : Q :=
  let x := Qred x in
  match (x ?= 0)%Q with
  | Eq => 0%Q
  | Gt => Qred (roundPositive x)
  | Lt => Qred (- roundPositive (- x))
  end.

(** [a / b] on doubles, for [b] not zero. *)
Definition div (a b : Q) : Q := round (a / b).

End Binary64.

(** ** Data model *)

Record ImageFile := mkImageFile {
  id : string;
  url : string;
  name : string;
  size : Z;
  type : string;
  dateModified : Z
}.

(** [interface ImageWithDimensions extends ImageFile] *)
Record ImageWithDimensions := mkImageWithDimensions {
  imageFile : ImageFile;
  width : Z;
  height : Z;
  aspectRatio : Q
}.

(** [interface PositionedImage extends ImageWithDimensions] *)
Record PositionedImage := mkPositionedImage {
  image : ImageWithDimensions;
  column : Z;
  top : Z;
  calculatedHeight : Z;
  calculatedWidth : Z
}.

(** What the browser reports for [img.src = imageFile.url]. *)
Inductive DecodeEvent :=
| onload (naturalWidth naturalHeight : Z)
| onerror.

(** ** loadImageDimensions

    The promise is resolved in both handlers and never rejected: a total
    function of the event.  [aspectRatio] is the double
    [img.naturalWidth / img.naturalHeight].  An image that loads with a
    natural dimension of 0 gives [NaN], [Infinity] or 0 there, never a
    positive finite ratio; the field, a rational, holds 0 in these cases and
    [dimensioned] below excludes such an image. *)
Definition loadImageDimensions (imageFile : ImageFile) (ev : DecodeEvent)
  : ImageWithDimensions :=
  match ev with
  | onload naturalWidth naturalHeight =>
      {| imageFile := imageFile;
         width := naturalWidth;
         height := naturalHeight;
         aspectRatio := Binary64.div (inject_Z naturalWidth) (inject_Z naturalHeight) |}
  | onerror =>
      {| imageFile := imageFile;
         width := 300;
         height := 200;
         aspectRatio := (3 # 2)%Q |}
  end.

(** ** calculateWaterfallLayout *)

Definition gap : Z := 16.

(** [containerMaxWidth], from the two ambient values the callback reads:
    the [isFullscreen] state and [window.innerWidth]. *)
Definition containerMaxWidth (isFullscreen : bool) (innerWidth : Z) : Z :=
  if isFullscreen then innerWidth - 32
  else
    let viewportWidth := innerWidth in
    let maxContainerWidth := 1280 in
    let actualMaxWidth := Z.min (viewportWidth - 32) maxContainerWidth in
    actualMaxWidth.

Definition availableWidth (containerMaxWidth : Z) (columnCount : nat) : Z :=
  containerMaxWidth - gap * (Z.of_nat columnCount - 1).

(** [Math.floor (availableWidth / columnCount)]; [Z.div] rounds down for the
    positive divisors of the contract, [columnCount >= 1]. *)
Definition imageWidthOf (containerMaxWidth : Z) (columnCount : nat) : Z :=
  availableWidth containerMaxWidth columnCount / Z.of_nat columnCount.

(** [columnHeights.indexOf (Math.min (...columnHeights))] *)
Definition shortestColumn (columnHeights : list Z) : Z :=
  match JS.Math_min columnHeights with
  | Some m => JS.indexOf columnHeights m
  | None => -1
  end.

(** [Math.round (imageWidth / image.aspectRatio)] *)
Definition heightFor (imageWidth : Z) (image : ImageWithDimensions) : Z :=
  JS.Math_round (Binary64.div (inject_Z imageWidth) (aspectRatio image)).

(** The body of the [images.map] callback: the positioned image and the
    [columnHeights] array after the update.  [top] reads
    [columnHeights[shortestColumnIndex]], which is defined whenever the array
    is not empty ([shortestColumn_firstMin] below); [default 0] is never used
    for [columnCount >= 1]. *)
Definition placeImage (imageWidth : Z) (columnHeights : list Z)
    (image : ImageWithDimensions) : PositionedImage * list Z :=
  let shortestColumnIndex := shortestColumn columnHeights in
  let calculatedHeight := heightFor imageWidth image in
  let totalCardHeight := calculatedHeight in
  let positionedImage :=
    {| image := image;
       column := shortestColumnIndex;
       top := default 0 (JS.get columnHeights shortestColumnIndex);
       calculatedHeight := totalCardHeight;
       calculatedWidth := imageWidth |} in
  (positionedImage, JS.addAt columnHeights shortestColumnIndex (totalCardHeight + gap)).

Arguments placeImage : simpl never.

(** [images.map] with the array the callback mutates passed along. *)
Fixpoint mapImages (imageWidth : Z) (columnHeights : list Z)
    (images : list ImageWithDimensions) : list PositionedImage * list Z :=
  match images with
  | [] => ([], columnHeights)
  | image :: rest =>
      let '(positionedImage, columnHeights1) := placeImage imageWidth columnHeights image in
      let '(positioned, columnHeights2) := mapImages imageWidth columnHeights1 rest in
      (positionedImage :: positioned, columnHeights2)
  end.

(** The run after the guard on the empty input: the positioned images and
    the final [columnHeights]. *)
Definition runLayout (isFullscreen : bool) (innerWidth : Z)
    (images : list ImageWithDimensions) (columnCount : nat)
  : list PositionedImage * list Z :=
  let imageWidth := imageWidthOf (containerMaxWidth isFullscreen innerWidth) columnCount in
  let columnHeights := replicate columnCount 0 in
  mapImages imageWidth columnHeights images.

Definition calculateWaterfallLayout (isFullscreen : bool) (innerWidth : Z)
    (images : list ImageWithDimensions) (columnCount : nat) : list PositionedImage :=
  match images with
  | [] => []
  | _ => fst (runLayout isFullscreen innerWidth images columnCount)
  end.

(** The accumulators [columnHeights] when the map has finished. *)
Definition finalColumnHeights (isFullscreen : bool) (innerWidth : Z)
    (images : list ImageWithDimensions) (columnCount : nat) : list Z :=
  snd (runLayout isFullscreen innerWidth images columnCount).

(** ** containerHeight and containerWidth *)

(** The callback of [positionedImages.forEach]. *)
Definition raiseColumn (columnHeights : list Z) (image : PositionedImage) : list Z :=
  let newHeight := top image + calculatedHeight image in
  match JS.get columnHeights (column image) with
  | Some h =>
      if h <? newHeight then <[Z.to_nat (column image) := newHeight]> columnHeights
      else columnHeights
  | None => columnHeights
  end.

(** [default 0] stands for the [-Infinity] of [Math.max ()] on no column,
    outside the contract [columnCount >= 1]. *)
Definition containerHeight (positionedImages : list PositionedImage)
    (columnCount : nat) : Z :=
  match positionedImages with
  | [] => 0
  | _ =>
      let columnHeights :=
        foldl raiseColumn (replicate columnCount 0) positionedImages in
      default 0 (JS.Math_max columnHeights)
  end.

(** [positionedImages[0]?.calculatedWidth || 300]: a zero width is falsy. *)
Definition containerWidth (positionedImages : list PositionedImage)
    (columnCount : nat) : Z :=
  match positionedImages with
  | [] => 0
  | first :: _ =>
      let imageWidth :=
        if calculatedWidth first =? 0 then 300 else calculatedWidth first in
      imageWidth * Z.of_nat columnCount + gap * (Z.of_nat columnCount - 1)
  end.

(** ** shuffleImages

    [random n] is the value of the [n]-th call of [Math.random ()], a number
    of [[0, 1)]. *)
Fixpoint shuffleLoop {A : Type} (random : nat -> Q) (calls : nat) (i : nat)
    (shuffled : list A) : list A :=
  match i with
  | O => shuffled
  | S i' =>
      let j := Z.to_nat (Qfloor (random calls * inject_Z (Z.of_nat i + 1))%Q) in
      shuffleLoop random (S calls) i' (JS.swap shuffled i j)
  end.

Definition shuffleImages {A : Type} (random : nat -> Q) (prev : list A) : list A :=
  let shuffled := prev in
  shuffleLoop random 0 (length shuffled - 1) shuffled.

(** ** Specification vocabulary *)

(** Column [c] holds the value [m], no column is lower, and every column
    before [c] is strictly higher: the lowest index among the minima. *)
Definition firstMin (columnHeights : list Z) (c : nat) (m : Z) : Prop :=
  columnHeights !! c = Some m
  /\ (forall j x, columnHeights !! j = Some x -> m <= x)
  /\ (forall j x, (j < c)%nat -> columnHeights !! j = Some x -> m < x).

(** A binary64 number without the bound on the exponent, a finite double,
    the range in which rounding does not overflow, and what the standard
    asks of the result of an operation: no double is nearer to the exact
    value. *)
Definition isFloat (q : Q) : Prop :=
  exists m e : Z,
    (q == inject_Z m * (2 # 1) ^ e)%Q /\ Z.abs m < 2 ^ 53 /\ -1074 <= e.

Definition isDouble (q : Q) : Prop :=
  exists m e : Z,
    (q == inject_Z m * (2 # 1) ^ e)%Q /\ Z.abs m < 2 ^ 53 /\ -1074 <= e <= 971.

Definition inDoubleRange (x : Q) : Prop := (Qabs x < (2 # 1) ^ 1023)%Q.

Definition nearestDouble (x q : Q) : Prop :=
  isDouble q /\ forall d : Q, isDouble d -> (Qabs (q - x) <= Qabs (d - x))%Q.

(** The spec's invariant of a dimensioned image. *)
Definition dimensioned (image : ImageWithDimensions) : Prop :=
  (0 < aspectRatio image)%Q.


(** A placement that does not lower its accumulator. *)
Definition growing (imageWidth : Z) (im : ImageWithDimensions) : Prop :=
  0 <= heightFor imageWidth im + gap.

(** Property C6 on a positioned sequence. *)
Definition noOverlap (positioned : list PositionedImage) : Prop :=
  forall (i j : nat) p q,
    (i < j)%nat ->
    positioned !! i = Some p ->
    positioned !! j = Some q ->
    column p = column q ->
    top p + calculatedHeight p + gap <= top q.

(** Spread of the accumulators: no two differ by more than [bound]. *)
Definition spreadWithin (bound : Z) (columnHeights : list Z) : Prop :=
  forall j x j' y,
    columnHeights !! j = Some x -> columnHeights !! j' = Some y -> x - y <= bound.

(** Property C5: the spread of the final accumulators is at most the
    height + gap of some placed image (so at most the largest one). *)
Definition balanced (positioned : list PositionedImage) (columnHeights : list Z) : Prop :=
  forall hi lo,
    JS.Math_max columnHeights = Some hi ->
    JS.Math_min columnHeights = Some lo ->
    exists p, p ∈ positioned /\ hi - lo <= calculatedHeight p + gap.

(** The content height.

    [containerHeight] recomputes a height per column from the positioned
    images: the largest top + height, without the gap.  [tracks] relates the
    array it builds to the accumulators of the layout: an untouched column
    holds 0 in both, a used column holds the accumulator minus the gap. *)

Definition tracks (columnHeights reached : list Z) : Prop :=
  forall j x, columnHeights !! j = Some x ->
    (x = 0 /\ reached !! j = Some 0)
    \/ (gap <= x /\ reached !! j = Some (x - gap)).

(** Every width and height of [positioned'] is [factor] times the one of
    [positioned]. *)
Definition scalesBy (factor : Q) (positioned positioned' : list PositionedImage) : Prop :=
  Forall2 (fun p p' =>
             (inject_Z (calculatedWidth p') == factor * inject_Z (calculatedWidth p))%Q
             /\ (inject_Z (calculatedHeight p')
                 == factor * inject_Z (calculatedHeight p))%Q)
          positioned positioned'.

(** ** Test data: the worked example *)

Definition file0 : ImageFile :=
  {| id := "a"; url := "blob:a"; name := "a.png"; size := 1; type := "image/png";
     dateModified := 0 |}.

Definition img (w h : Z) : ImageWithDimensions :=
  loadImageDimensions file0 (onload w h).

Definition geometry (p : PositionedImage) : Z * Z * Z * Z :=
  (column p, top p, calculatedHeight p, calculatedWidth p).

Definition exampleImages : list ImageWithDimensions :=
  [img 200 100; img 100 100; img 100 100].

Definition file1 : ImageFile :=
  {| id := "b"; url := "blob:b"; name := "b.png"; size := 2; type := "image/png";
     dateModified := 1 |}.

Definition file2 : ImageFile :=
  {| id := "c"; url := "blob:c"; name := "c.jpg"; size := 3; type := "image/jpeg";
     dateModified := 2 |}.

(** Tall images, of ratio 1/16. *)
Definition tall : ImageWithDimensions := img 50 800.

Definition resizeImages : list ImageWithDimensions :=
  [img 308 100; img 309 100; img 100 100].

(** ** Rendering of the cards

    The style of a card of the gallery: [left] is
    [image.column * (image.calculatedWidth + 16)], [top] is [image.top], the
    width is [image.calculatedWidth]; the height of the card is the one the
    layout reserved, [image.calculatedHeight]. *)

Definition cardLeft (image : PositionedImage) : Z :=
  column image * (calculatedWidth image + 16).

(** Two cards kept apart, by the gap at least, side by side or one above
    the other. *)
Definition apart (p q : PositionedImage) : Prop :=
  cardLeft p + calculatedWidth p + gap <= cardLeft q
  \/ cardLeft q + calculatedWidth q + gap <= cardLeft p
  \/ top p + calculatedHeight p + gap <= top q
  \/ top q + calculatedHeight q + gap <= top p.

(** The accumulators of [k] columns after [n] placements that each add [d]
    and go round the columns: [n / k] full rows, and one more image in the
    first [n mod k] columns. *)
Definition gridHeights (k : nat) (d : Z) (n : nat) : list Z :=
  (fun c : nat => (Z.of_nat (n / k) + (if (c <? n mod k)%nat then 1 else 0)) * d)
    <$> seq 0 k.

(** ** Built-ins of the platform

    The string functions of the language the page calls.  Their results on
    arbitrary Unicode text are the platform's business; the page is modelled
    over any implementation, and [asciiPlatform] below is one for ASCII
    text, used to evaluate examples. *)

Class Platform := {
  trim : string -> string;               (* [s.trim ()] *)
  toLowerCase : string -> string;        (* [s.toLowerCase ()] *)
  includes : string -> string -> bool;   (* [s.includes (t)] *)
  localeCompare : string -> string -> Z; (* [s.localeCompare (t)] *)
  parseInt : string -> Z                 (* [parseInt (s)] where it is a number *)
}.

(** [array[i]] for any element type; [None] is [undefined]. *)
Definition arrayAt {A : Type} (array : list A) (i : Z) : option A :=
  if i <? 0 then None else array !! Z.to_nat i.

(** [array.sort (compareFn)].  The language fixes the result for a
    consistent comparator: the elements in ascending order of [compareFn],
    elements that compare equal in their original order (the sort is
    stable).  It is computed here by stable insertion: each element in turn
    goes behind all the elements already placed that do not compare greater
    than it. *)
Fixpoint sortInsert {A : Type} (compareFn : A -> A -> Z) (x : A) (sorted : list A)
  : list A :=
  match sorted with
  | [] => [x]
  | y :: rest =>
      if 0 <? compareFn y x then x :: y :: rest
      else y :: sortInsert compareFn x rest
  end.

Definition Array_sort {A : Type} (compareFn : A -> A -> Z) (array : list A) : list A :=
  foldl (fun sorted x => sortInsert compareFn x sorted) [] array.

(** ** The pipeline from the imported files to the cards *)

Inductive SortCriteria := criteria_name | criteria_date | criteria_size | criteria_type.

Inductive SortOrder := asc | desc.

(** One run of the effect that sets [imagesWithDimensions], for the
    [images] it was started with: the value it stores, at once for an empty
    list and when every decode has answered otherwise.  [Promise.all] over
    [images.map (loadImageDimensions)] keeps the order of [images]; [decode]
    is the event the browser answers for each image. *)
Definition loadDimensions (decode : ImageFile -> DecodeEvent) (images : list ImageFile)
  : list ImageWithDimensions :=
  match images with
  | [] => []
  | _ => map (fun imageFile => loadImageDimensions imageFile (decode imageFile)) images
  end.

(** [filteredImages]; the empty string is the falsy one. *)
Definition filteredImages `{Platform} (imagesWithDimensions : list ImageWithDimensions)
    (searchTerm : string) : list ImageWithDimensions :=
  if String.eqb (trim searchTerm) "" then imagesWithDimensions
  else
    List.filter
      (fun image =>
         includes (toLowerCase (name (imageFile image))) (toLowerCase searchTerm))
      imagesWithDimensions.

(** The comparator of [sortedImages]. *)
Definition compareImages `{Platform} (sortCriteria : SortCriteria) (sortOrder : SortOrder)
    (a b : ImageWithDimensions) : Z :=
  let comparison :=
    match sortCriteria with
    | criteria_name => localeCompare (name (imageFile a)) (name (imageFile b))
    | criteria_date => dateModified (imageFile a) - dateModified (imageFile b)
    | criteria_size => size (imageFile a) - size (imageFile b)
    | criteria_type => localeCompare (type (imageFile a)) (type (imageFile b))
    end in
  match sortOrder with
  | asc => comparison
  | desc => - comparison
  end.

Definition sortedImages `{Platform} (filteredImages : list ImageWithDimensions)
    (sortCriteria : SortCriteria) (sortOrder : SortOrder) (isShuffled : bool)
  : list ImageWithDimensions :=
  if isShuffled then filteredImages
  else Array_sort (compareImages sortCriteria sortOrder) filteredImages.

(** A file of a [FileList], with the two values the platform makes up when
    the page turns it into an image: the result of
    [Math.random ().toString (36).substr (2, 9)] and of
    [URL.createObjectURL (file)]. *)
Record BrowserFile := mkBrowserFile {
  file_name : string;
  file_size : Z;
  file_type : string;
  file_lastModified : Z;
  randomId : string;
  objectURL : string
}.

(** The loop of [handleFileSelect] and of [handleDrop] over [Array.from
    (files)]: the files whose type starts with [image/], as images. *)
Definition imageFilesOf (files : list BrowserFile) : list ImageFile :=
  map (fun file =>
         {| id := randomId file;
            url := objectURL file;
            name := file_name file;
            size := file_size file;
            type := file_type file;
            dateModified := file_lastModified file |})
      (List.filter (fun file => String.prefix "image/" (file_type file)) files).

(** ** The state of the page and its handlers

    One field per [useState] that a handler sets, and [dragCounter] for
    [dragCounterRef.current].  The state [imagesWithDimensions] is set by
    the decoding effect alone, when the decodes of a batch have all
    answered, with nothing that cancels an earlier run: while a decode is
    under way, and after a reset during one, it holds the images of an
    earlier batch.  It is therefore not a field here: the memos
    [sortedImagesFrom] and [positionedImagesFrom] take its value as an
    argument.  [imagesWithDimensionsOf], [sortedImagesOf] and
    [positionedImagesOf] are the values once the decodes of the current
    [images] have answered. *)

Module Page.

Record State := mkState {
  images : list ImageFile;
  searchTerm : string;
  sortCriteria : SortCriteria;
  sortOrder : SortOrder;
  isShuffled : bool;
  columnCount : Z;
  isDarkMode : bool;
  isDragOver : bool;
  isFullscreen : bool;
  previewIndex : Z;
  isPreviewOpen : bool;
  dragCounter : Z
}.

(** The values of the [useState] and [useRef] calls. *)
Definition initial : State :=
  {| images := []; searchTerm := ""; sortCriteria := criteria_name; sortOrder := asc;
     isShuffled := false; columnCount := 5; isDarkMode := false; isDragOver := false;
     isFullscreen := false; previewIndex := -1; isPreviewOpen := false;
     dragCounter := 0 |}.

Definition setImages (f : list ImageFile -> list ImageFile) (s : State) : State :=
  {| images := f (images s); searchTerm := searchTerm s;
     sortCriteria := sortCriteria s; sortOrder := sortOrder s;
     isShuffled := isShuffled s; columnCount := columnCount s;
     isDarkMode := isDarkMode s; isDragOver := isDragOver s;
     isFullscreen := isFullscreen s; previewIndex := previewIndex s;
     isPreviewOpen := isPreviewOpen s; dragCounter := dragCounter s |}.

Definition setSearchTerm (v : string) (s : State) : State :=
  {| images := images s; searchTerm := v;
     sortCriteria := sortCriteria s; sortOrder := sortOrder s;
     isShuffled := isShuffled s; columnCount := columnCount s;
     isDarkMode := isDarkMode s; isDragOver := isDragOver s;
     isFullscreen := isFullscreen s; previewIndex := previewIndex s;
     isPreviewOpen := isPreviewOpen s; dragCounter := dragCounter s |}.

Definition setSortCriteria (v : SortCriteria) (s : State) : State :=
  {| images := images s; searchTerm := searchTerm s;
     sortCriteria := v; sortOrder := sortOrder s;
     isShuffled := isShuffled s; columnCount := columnCount s;
     isDarkMode := isDarkMode s; isDragOver := isDragOver s;
     isFullscreen := isFullscreen s; previewIndex := previewIndex s;
     isPreviewOpen := isPreviewOpen s; dragCounter := dragCounter s |}.

Definition setSortOrder (f : SortOrder -> SortOrder) (s : State) : State :=
  {| images := images s; searchTerm := searchTerm s;
     sortCriteria := sortCriteria s; sortOrder := f (sortOrder s);
     isShuffled := isShuffled s; columnCount := columnCount s;
     isDarkMode := isDarkMode s; isDragOver := isDragOver s;
     isFullscreen := isFullscreen s; previewIndex := previewIndex s;
     isPreviewOpen := isPreviewOpen s; dragCounter := dragCounter s |}.

Definition setIsShuffled (v : bool) (s : State) : State :=
  {| images := images s; searchTerm := searchTerm s;
     sortCriteria := sortCriteria s; sortOrder := sortOrder s;
     isShuffled := v; columnCount := columnCount s;
     isDarkMode := isDarkMode s; isDragOver := isDragOver s;
     isFullscreen := isFullscreen s; previewIndex := previewIndex s;
     isPreviewOpen := isPreviewOpen s; dragCounter := dragCounter s |}.

Definition setColumnCount (v : Z) (s : State) : State :=
  {| images := images s; searchTerm := searchTerm s;
     sortCriteria := sortCriteria s; sortOrder := sortOrder s;
     isShuffled := isShuffled s; columnCount := v;
     isDarkMode := isDarkMode s; isDragOver := isDragOver s;
     isFullscreen := isFullscreen s; previewIndex := previewIndex s;
     isPreviewOpen := isPreviewOpen s; dragCounter := dragCounter s |}.

Definition setIsDarkMode (f : bool -> bool) (s : State) : State :=
  {| images := images s; searchTerm := searchTerm s;
     sortCriteria := sortCriteria s; sortOrder := sortOrder s;
     isShuffled := isShuffled s; columnCount := columnCount s;
     isDarkMode := f (isDarkMode s); isDragOver := isDragOver s;
     isFullscreen := isFullscreen s; previewIndex := previewIndex s;
     isPreviewOpen := isPreviewOpen s; dragCounter := dragCounter s |}.

Definition setIsDragOver (v : bool) (s : State) : State :=
  {| images := images s; searchTerm := searchTerm s;
     sortCriteria := sortCriteria s; sortOrder := sortOrder s;
     isShuffled := isShuffled s; columnCount := columnCount s;
     isDarkMode := isDarkMode s; isDragOver := v;
     isFullscreen := isFullscreen s; previewIndex := previewIndex s;
     isPreviewOpen := isPreviewOpen s; dragCounter := dragCounter s |}.

Definition setIsFullscreen (f : bool -> bool) (s : State) : State :=
  {| images := images s; searchTerm := searchTerm s;
     sortCriteria := sortCriteria s; sortOrder := sortOrder s;
     isShuffled := isShuffled s; columnCount := columnCount s;
     isDarkMode := isDarkMode s; isDragOver := isDragOver s;
     isFullscreen := f (isFullscreen s); previewIndex := previewIndex s;
     isPreviewOpen := isPreviewOpen s; dragCounter := dragCounter s |}.

Definition setPreviewIndex (f : Z -> Z) (s : State) : State :=
  {| images := images s; searchTerm := searchTerm s;
     sortCriteria := sortCriteria s; sortOrder := sortOrder s;
     isShuffled := isShuffled s; columnCount := columnCount s;
     isDarkMode := isDarkMode s; isDragOver := isDragOver s;
     isFullscreen := isFullscreen s; previewIndex := f (previewIndex s);
     isPreviewOpen := isPreviewOpen s; dragCounter := dragCounter s |}.

Definition setIsPreviewOpen (v : bool) (s : State) : State :=
  {| images := images s; searchTerm := searchTerm s;
     sortCriteria := sortCriteria s; sortOrder := sortOrder s;
     isShuffled := isShuffled s; columnCount := columnCount s;
     isDarkMode := isDarkMode s; isDragOver := isDragOver s;
     isFullscreen := isFullscreen s; previewIndex := previewIndex s;
     isPreviewOpen := v; dragCounter := dragCounter s |}.

Definition setDragCounter (f : Z -> Z) (s : State) : State :=
  {| images := images s; searchTerm := searchTerm s;
     sortCriteria := sortCriteria s; sortOrder := sortOrder s;
     isShuffled := isShuffled s; columnCount := columnCount s;
     isDarkMode := isDarkMode s; isDragOver := isDragOver s;
     isFullscreen := isFullscreen s; previewIndex := previewIndex s;
     isPreviewOpen := isPreviewOpen s; dragCounter := f (dragCounter s) |}.

(** *** What the memos compute

    [filteredImages], [sortedImages] and [positionedImages] for a value of
    the [imagesWithDimensions] state. *)

Definition filteredImagesFrom `{Platform} (imagesWithDimensions : list ImageWithDimensions)
    (s : State) : list ImageWithDimensions :=
  filteredImages imagesWithDimensions (searchTerm s).

Definition sortedImagesFrom `{Platform} (imagesWithDimensions : list ImageWithDimensions)
    (s : State) : list ImageWithDimensions :=
  sortedImages (filteredImagesFrom imagesWithDimensions s)
    (sortCriteria s) (sortOrder s) (isShuffled s).

(** [calculateWaterfallLayout (sortedImages, columnCount)], with the
    viewport width the callback reads. *)
Definition positionedImagesFrom `{Platform} (imagesWithDimensions : list ImageWithDimensions)
    (innerWidth : Z) (s : State) : list PositionedImage :=
  calculateWaterfallLayout (isFullscreen s) innerWidth
    (sortedImagesFrom imagesWithDimensions s) (Z.to_nat (columnCount s)).

(** *** The same once the decodes of the current images have answered

    What the effect sets when its run for the current [images] resolves,
    and the memos from that value. *)

Definition imagesWithDimensionsOf (decode : ImageFile -> DecodeEvent) (s : State)
  : list ImageWithDimensions :=
  loadDimensions decode (images s).

Definition filteredImagesOf `{Platform} (decode : ImageFile -> DecodeEvent) (s : State)
  : list ImageWithDimensions :=
  filteredImages (imagesWithDimensionsOf decode s) (searchTerm s).

Definition sortedImagesOf `{Platform} (decode : ImageFile -> DecodeEvent) (s : State)
  : list ImageWithDimensions :=
  sortedImages (filteredImagesOf decode s) (sortCriteria s) (sortOrder s) (isShuffled s).

(** [calculateWaterfallLayout (sortedImages, columnCount)], with the
    viewport width the callback reads. *)
Definition positionedImagesOf `{Platform} (decode : ImageFile -> DecodeEvent)
    (innerWidth : Z) (s : State) : list PositionedImage :=
  calculateWaterfallLayout (isFullscreen s) innerWidth (sortedImagesOf decode s)
    (Z.to_nat (columnCount s)).

(** *** Handlers *)

Definition handleColumnCountChange (value0 : Z) (s : State) : State :=
  setColumnCount value0 s.

Definition toggleFullscreen (s : State) : State :=
  setIsFullscreen negb s.

Definition toggleSortOrder (s : State) : State :=
  setIsShuffled false
    (setSortOrder (fun prev => match prev with asc => desc | desc => asc end) s).

Definition handleSortChange (value : SortCriteria) (s : State) : State :=
  setIsShuffled false (setSortCriteria value s).

(** The state part of [shuffleImages]. *)
Definition shuffle (random : nat -> Q) (s : State) : State :=
  setIsShuffled true (setImages (shuffleImages random) s).

(** The state part of [handleReset]; dark mode, fullscreen and the drag
    state are left as they are. *)
Definition handleReset (s : State) : State :=
  setPreviewIndex (fun _ => -1)
    (setIsPreviewOpen false
       (setColumnCount 5
          (setSortOrder (fun _ => asc)
             (setSortCriteria criteria_name
                (setIsShuffled false
                   (setSearchTerm "" (setImages (fun _ => []) s))))))).

Definition openPreview (index : Z) (s : State) : State :=
  setIsPreviewOpen true (setPreviewIndex (fun _ => index) s).

Definition closePreview (s : State) : State :=
  setPreviewIndex (fun _ => -1) (setIsPreviewOpen false s).

(** [sortedLength] is [sortedImages.length]. *)
Definition goToNextImage (sortedLength : Z) (s : State) : State :=
  if previewIndex s <? sortedLength - 1
  then setPreviewIndex (fun prev => prev + 1) s
  else s.

Definition goToPreviousImage (s : State) : State :=
  if 0 <? previewIndex s
  then setPreviewIndex (fun prev => prev - 1) s
  else s.

(** [files] is [event.target.files]; [None] is the falsy [null]. *)
Definition handleFileSelect (files : option (list BrowserFile)) (s : State) : State :=
  match files with
  | None => s
  | Some files =>
      let imageFiles := imageFilesOf files in
      setIsShuffled false (setImages (fun prev => prev ++ imageFiles) s)
  end.

(** [hasItems] is [event.dataTransfer.items && items.length > 0]. *)
Definition handleDragEnter (hasItems : bool) (s : State) : State :=
  let s1 := setDragCounter (fun c => c + 1) s in
  if hasItems then setIsDragOver true s1 else s1.

Definition handleDragLeave (s : State) : State :=
  let s1 := setDragCounter (fun c => c - 1) s in
  if dragCounter s1 =? 0 then setIsDragOver false s1 else s1.

Definition handleDragOver (s : State) : State := s.

Definition handleDrop (files : option (list BrowserFile)) (s : State) : State :=
  let s1 := setDragCounter (fun _ => 0) (setIsDragOver false s) in
  match files with
  | None => s1
  | Some files =>
      let imageFiles := imageFilesOf files in
      if (0 <? length imageFiles)%nat
      then setIsShuffled false (setImages (fun prev => prev ++ imageFiles) s1)
      else s1
  end.

Definition isDigitKey (key : string) : bool :=
  existsb (String.eqb key) ["1"; "2"; "3"; "4"; "5"; "6"; "7"; "8"; "9"]%string.

(** The [keydown] listener of the page.  [targetIsInput] says that the
    target is an input or a text area; the case [i] only opens the file
    dialog. *)
Definition handleKeyPress `{Platform} (random : nat -> Q) (targetIsInput : bool)
    (key : string) (s : State) : State :=
  if targetIsInput || isPreviewOpen s then s
  else
    let k := toLowerCase key in
    if String.eqb k "i" then s
    else if String.eqb k "s" then
      if (0 <? length (images s))%nat then shuffle random s else s
    else if String.eqb k "r" then handleReset s
    else if String.eqb k "f" then toggleFullscreen s
    else if String.eqb k "d" then setIsDarkMode negb s
    else if String.eqb k "escape" then
      if isFullscreen s then setIsFullscreen (fun _ => false) s else s
    else if isDigitKey k then setColumnCount (parseInt key) s
    else if String.eqb k "0" then setColumnCount 10 s
    else s.

(** What the user can do on the page.  A slider event carries the value
    the slider reports. *)
Inductive Event :=
| KeyDown (random : nat -> Q) (targetIsInput : bool) (key : string)
| SliderChange (value0 : Z)
| FileSelect (files : option (list BrowserFile))
| Drop (files : option (list BrowserFile))
| DragEnter (hasItems : bool)
| DragLeave
| DragOver
| ShuffleClick (random : nat -> Q)
| ResetClick
| FullscreenClick
| DarkModeClick
| SortChange (value : SortCriteria)
| SortOrderClick
| SearchInput (value : string)
| SearchClear
| CardClick (index : Z)
| PreviewClose
| PreviewNext
| PreviewPrevious.

Definition step `{Platform} (decode : ImageFile -> DecodeEvent) (s : State) (e : Event)
  : State :=
  match e with
  | KeyDown random targetIsInput key => handleKeyPress random targetIsInput key s
  | SliderChange value0 => handleColumnCountChange value0 s
  | FileSelect files => handleFileSelect files s
  | Drop files => handleDrop files s
  | DragEnter hasItems => handleDragEnter hasItems s
  | DragLeave => handleDragLeave s
  | DragOver => handleDragOver s
  | ShuffleClick random => shuffle random s
  | ResetClick => handleReset s
  | FullscreenClick => toggleFullscreen s
  | DarkModeClick => setIsDarkMode negb s
  | SortChange value => handleSortChange value s
  | SortOrderClick => toggleSortOrder s
  | SearchInput value => setSearchTerm value s
  | SearchClear => setSearchTerm "" s
  | CardClick index => openPreview index s
  | PreviewClose => closePreview s
  | PreviewNext =>
      goToNextImage (Z.of_nat (length (sortedImagesOf decode s))) s
  | PreviewPrevious => goToPreviousImage s
  end.

Definition run `{Platform} (decode : ImageFile -> DecodeEvent) (events : list Event)
  : State :=
  foldl (step decode) initial events.

End Page.

(** ** The preview component (src/components/ImagePreview.tsx) *)

Module ImagePreview.

(** [const currentImage = images[currentIndex]] *)
Definition currentImage {A : Type} (images : list A) (currentIndex : Z) : option A :=
  arrayAt images currentIndex.

(** The component renders something unless [!isOpen || !currentImage]. *)
Definition rendered {A : Type} (images : list A) (currentIndex : Z) (isOpen : bool)
  : bool :=
  isOpen && bool_decide (is_Some (currentImage images currentIndex)).

(** The two buttons are drawn under these conditions. *)
Definition showPrevious (currentIndex : Z) : bool := 0 <? currentIndex.

Definition showNext {A : Type} (images : list A) (currentIndex : Z) : bool :=
  currentIndex <? Z.of_nat (length images) - 1.

(** The position shown under the image, [currentIndex + 1] of
    [images.length]. *)
Definition position {A : Type} (images : list A) (currentIndex : Z) : Z * Z :=
  (currentIndex + 1, Z.of_nat (length images)).

(** The [keydown] listener of the open preview, with the three callbacks
    the page passes. *)
Definition handleKeyPress (sortedLength : Z) (key : string) (s : Page.State)
  : Page.State :=
  if negb (Page.isPreviewOpen s) then s
  else if String.eqb key "Escape" then Page.closePreview s
  else if String.eqb key "ArrowLeft" then Page.goToPreviousImage s
  else if String.eqb key "ArrowRight" then Page.goToNextImage sortedLength s
  else s.

End ImagePreview.

(** ** A platform for ASCII text, to evaluate examples *)

Definition asciiLower (c : Ascii.ascii) : Ascii.ascii :=
  let n := Ascii.nat_of_ascii c in
  if ((65 <=? n) && (n <=? 90))%nat then Ascii.ascii_of_nat (n + 32) else c.

Fixpoint asciiToLowerCase (s : string) : string :=
  match s with
  | EmptyString => EmptyString
  | String c rest => String (asciiLower c) (asciiToLowerCase rest)
  end.

Fixpoint asciiIncludes (s t : string) : bool :=
  String.prefix t s
  || match s with
     | EmptyString => false
     | String _ rest => asciiIncludes rest t
     end.

Fixpoint dropSpaces (s : string) : string :=
  match s with
  | String c rest => if (Ascii.nat_of_ascii c =? 32)%nat then dropSpaces rest else s
  | EmptyString => s
  end.

Fixpoint stringRev (s : string) : string :=
  match s with
  | EmptyString => EmptyString
  | String c rest => (stringRev rest ++ String c EmptyString)%string
  end.

Definition asciiTrim (s : string) : string :=
  stringRev (dropSpaces (stringRev (dropSpaces s))).

Definition asciiCompare (s t : string) : Z :=
  match String.compare s t with
  | Eq => 0
  | Lt => -1
  | Gt => 1
  end.

Definition asciiParseDigit (s : string) : Z :=
  match s with
  | String c EmptyString => Z.of_nat (Ascii.nat_of_ascii c) - 48
  | _ => 0
  end.

#[local] Instance asciiPlatform : Platform :=
  {| trim := asciiTrim;
     toLowerCase := asciiToLowerCase;
     includes := asciiIncludes;
     localeCompare := asciiCompare;
     parseInt := asciiParseDigit |}.

(** [a] does not come after [b] for the comparator. *)
Definition notGreater {A : Type} (compareFn : A -> A -> Z) (a b : A) : Prop :=
  compareFn a b <= 0.

(** The order a numeric criterion asks for. *)
Definition inOrder (sortOrder : SortOrder) (x y : Z) : Prop :=
  match sortOrder with
  | asc => x <= y
  | desc => y <= x
  end.

Definition withSize (v : Z) (image : ImageWithDimensions) : bool :=
  size (imageFile image) =? v.

Definition withDate (v : Z) (image : ImageWithDimensions) : bool :=
  dateModified (imageFile image) =? v.

Definition sizedImage (bytes modified : Z) (w h : Z) : ImageWithDimensions :=
  loadImageDimensions
    {| id := "x"; url := "blob:x"; name := "x.png"; size := bytes; type := "image/png";
       dateModified := modified |}
    (onload w h).

(** [Math.random] answers in [0, 1). *)
Definition randomInRange (random : nat -> Q) : Prop :=
  forall n, (0 <= random n)%Q /\ (random n < 1)%Q.

(** Events as the browser delivers them: random numbers in range, and
    slider values between the [min] and [max] of the slider, 1 and 10. *)
Definition wellFormed (e : Page.Event) : Prop :=
  match e with
  | Page.KeyDown random _ _ => randomInRange random
  | Page.ShuffleClick random => randomInRange random
  | Page.SliderChange value0 => 1 <= value0 <= 10
  | _ => True
  end.

Definition isImageType (imageFile : ImageFile) : Prop :=
  String.prefix "image/" (type imageFile) = true.

Definition pngFile (n : string) : BrowserFile :=
  {| file_name := n; file_size := 10; file_type := "image/png"; file_lastModified := 0;
     randomId := n; objectURL := n |}.

Definition textFile : BrowserFile :=
  {| file_name := "notes.txt"; file_size := 5; file_type := "text/plain";
     file_lastModified := 0; randomId := "t"; objectURL := "blob:t" |}.

Definition decodeAll (w h : Z) : ImageFile -> DecodeEvent := fun _ => onload w h.

Definition demoState : Page.State :=
  Page.handleFileSelect (Some [pngFile "b"; textFile; pngFile "a"]) Page.initial.

Definition notImageFile (file : BrowserFile) : Prop :=
  String.prefix "image/" (file_type file) = false.

Definition flipped (sortOrder : SortOrder) : SortOrder :=
  match sortOrder with
  | asc => desc
  | desc => asc
  end.

(** ** The worked example, evaluated *)

Example example_layout :
  map geometry (calculateWaterfallLayout false 664 exampleImages 2)
  = [(0, 0, 154, 308); (1, 0, 308, 308); (0, 170, 308, 308)].
Proof. vm_compute. reflexivity. Qed.

Example example_heights :
  finalColumnHeights false 664 exampleImages 2 = [494; 324].
Proof. vm_compute. reflexivity. Qed.

Example example_containerHeight :
  containerHeight (calculateWaterfallLayout false 664 exampleImages 2) 2 = 478.
Proof. vm_compute. reflexivity. Qed.

Example example_narrow :
  containerMaxWidth false 160 = 128
  /\ imageWidthOf (containerMaxWidth false 160) 10 = -2
  /\ map geometry (calculateWaterfallLayout false 160 [tall; tall; tall] 10)
     = [(0, 0, -32, -2); (0, -16, -32, -2); (0, -32, -32, -2)].
Proof. vm_compute. done. Qed.

Example example_resize :
  map geometry (calculateWaterfallLayout false 664 resizeImages 2)
  = [(0, 0, 100, 308); (1, 0, 100, 308); (0, 116, 308, 308)]
  /\ map geometry (calculateWaterfallLayout false 1296 resizeImages 2)
     = [(0, 0, 203, 624); (1, 0, 202, 624); (1, 218, 624, 624)].
Proof. vm_compute. done. Qed.

(** The quotients are rounded as the machine rounds them.  1 / 3 is the
    double 6004799503160661 * 2^-54.  A 216 x 100 image has the double
    nearest to 2.16 as its ratio, and 243 over it is 112.49999999999999 in
    doubles, which [Math.round] takes to 112, where the exact quotient
    112.5 would go to 113; likewise a 256 x 300 image at width 416, and
    there the next image goes to another column. *)
Example example_double_rounding :
  Binary64.div 1 3 = (6004799503160661 # 18014398509481984)%Q
  /\ heightFor 243 (img 216 100) = 112
  /\ JS.Math_round (inject_Z 243 / (216 # 100)) = 113
  /\ heightFor 416 (img 256 300) = 487
  /\ JS.Math_round (inject_Z 416 / (256 # 300)) = 488.
Proof. vm_compute. done. Qed.

(** The quotients of the worked example are in the range of the doubles. *)
Example example_in_range :
  Forall (fun im => inDoubleRange (inject_Z 308 / aspectRatio im)) exampleImages.
Proof. repeat constructor. Qed.

(** A single image on three empty columns goes to column 0. *)
Example example_tie_break :
  map column (calculateWaterfallLayout false 1312 [img 100 100] 3) = [0].
Proof. vm_compute. reflexivity. Qed.

(** ** Lemmas on the helpers *)

Section Helpers.

Lemma foldl_min_le (l : list Z) (a : Z) :
  foldl Z.min a l <= a /\ (forall x, x ∈ l -> foldl Z.min a l <= x).
Proof.
  revert a. induction l as [|y l IH]; intros a; simpl.
  - split; [lia|]. intros x Hx. inversion Hx.
  - destruct (IH (Z.min a y)) as [H1 H2]. split; [lia|].
    intros x Hx. apply elem_of_cons in Hx as [->|Hx]; [lia|auto].
Qed.

Lemma foldl_min_in (l : list Z) (a : Z) :
  foldl Z.min a l = a \/ foldl Z.min a l ∈ l.
Proof.
  revert a. induction l as [|y l IH]; intros a; simpl; [by left|].
  destruct (IH (Z.min a y)) as [H|H].
  - rewrite H. destruct (Z.min_spec a y) as [[_ ->]|[_ ->]]; [by left|].
    right. apply elem_of_cons. by left.
  - right. apply elem_of_cons. by right.
Qed.

Lemma foldl_max_ge (l : list Z) (a : Z) :
  a <= foldl Z.max a l /\ (forall x, x ∈ l -> x <= foldl Z.max a l).
Proof.
  revert a. induction l as [|y l IH]; intros a; simpl.
  - split; [lia|]. intros x Hx. inversion Hx.
  - destruct (IH (Z.max a y)) as [H1 H2]. split; [lia|].
    intros x Hx. apply elem_of_cons in Hx as [->|Hx]; [lia|auto].
Qed.

Lemma foldl_max_in (l : list Z) (a : Z) :
  foldl Z.max a l = a \/ foldl Z.max a l ∈ l.
Proof.
  revert a. induction l as [|y l IH]; intros a; simpl; [by left|].
  destruct (IH (Z.max a y)) as [H|H].
  - rewrite H. destruct (Z.max_spec a y) as [[_ ->]|[_ ->]]; [|by left].
    right. apply elem_of_cons. by left.
  - right. apply elem_of_cons. by right.
Qed.

(** [Math.min] of a non-empty array is an element below all elements. *)
Lemma Math_min_Some (l : list Z) :
  l <> [] ->
  exists m, JS.Math_min l = Some m /\ m ∈ l /\ forall x, x ∈ l -> m <= x.
Proof.
  destruct l as [|a l]; [done|]. intros _. simpl.
  exists (foldl Z.min a l). split; [done|].
  destruct (foldl_min_le l a) as [H1 H2]. split.
  - apply elem_of_cons. destruct (foldl_min_in l a); auto.
  - intros x Hx. apply elem_of_cons in Hx as [->|Hx]; auto.
Qed.

Lemma Math_max_Some (l : list Z) :
  l <> [] ->
  exists m, JS.Math_max l = Some m /\ m ∈ l /\ forall x, x ∈ l -> x <= m.
Proof.
  destruct l as [|a l]; [done|]. intros _. simpl.
  exists (foldl Z.max a l). split; [done|].
  destruct (foldl_max_ge l a) as [H1 H2]. split.
  - apply elem_of_cons. destruct (foldl_max_in l a); auto.
  - intros x Hx. apply elem_of_cons in Hx as [->|Hx]; auto.
Qed.

(** [indexOf] finds the first position of an element of the array. *)
Lemma indexOfFrom_found (x : Z) (l : list Z) (from : Z) :
  x ∈ l ->
  exists n : nat,
    JS.indexOfFrom x l from = from + Z.of_nat n
    /\ l !! n = Some x
    /\ forall j y, (j < n)%nat -> l !! j = Some y -> y <> x.
Proof.
  revert from. induction l as [|a l IH]; intros from Hx; [inversion Hx|].
  simpl. destruct (Z.eqb_spec a x) as [->|Hne].
  - exists 0%nat. split; [lia|]. split; [done|]. intros j y Hj. lia.
  - apply elem_of_cons in Hx as [Hx|Hx]; [congruence|].
    destruct (IH (from + 1) Hx) as (n & Hn & Hl & Hfirst).
    exists (S n). split; [lia|]. split; [done|].
    intros [|j] y Hj Hy; simpl in Hy.
    + congruence.
    + apply (Hfirst j); [lia|done].
Qed.

(** The selected column of a non-empty array: in range, minimal, and the
    first one among the minimal ones. *)
Lemma shortestColumn_firstMin (columnHeights : list Z) :
  columnHeights <> [] ->
  exists (c : nat) (m : Z),
    shortestColumn columnHeights = Z.of_nat c /\ firstMin columnHeights c m.
Proof.
  intros Hne. destruct (Math_min_Some _ Hne) as (m & Hm & Hin & Hle).
  destruct (indexOfFrom_found m columnHeights 0 Hin) as (c & Hc & Hl & Hfirst).
  exists c, m. unfold shortestColumn, JS.indexOf. rewrite Hm, Hc.
  split; [lia|]. split; [done|]. split.
  - intros j x Hj. apply Hle. by eapply list_elem_of_lookup_2.
  - intros j x Hj Hx.
    assert (m <= x) by (apply Hle; by eapply list_elem_of_lookup_2).
    assert (x <> m) by (by eapply Hfirst). lia.
Qed.

Lemma firstMin_unique (columnHeights : list Z) c m c' m' :
  firstMin columnHeights c m -> firstMin columnHeights c' m' -> c = c' /\ m = m'.
Proof.
  intros (H1 & H2 & H3) (H1' & H2' & H3').
  assert (m <= m') by (by eapply H2).
  assert (m' <= m) by (by eapply H2').
  destruct (Nat.lt_trichotomy c c') as [Hlt|[Heq|Hgt]].
  - specialize (H3' _ _ Hlt H1). lia.
  - split; [done|lia].
  - specialize (H3 _ _ Hgt H1'). lia.
Qed.

Lemma get_of_nat (l : list Z) (n : nat) : JS.get l (Z.of_nat n) = l !! n.
Proof.
  unfold JS.get. destruct (Z.ltb_spec (Z.of_nat n) 0); [lia|].
  by rewrite Nat2Z.id.
Qed.

Lemma addAt_of_nat (l : list Z) (n : nat) (old v : Z) :
  l !! n = Some old -> JS.addAt l (Z.of_nat n) v = <[n := old + v]> l.
Proof.
  intros H. unfold JS.addAt. rewrite get_of_nat, H. by rewrite Nat2Z.id.
Qed.

Lemma addAt_length (l : list Z) (i v : Z) : length (JS.addAt l i v) = length l.
Proof.
  unfold JS.addAt. destruct (JS.get l i); [apply length_insert|done].
Qed.

Lemma Math_round_nonneg (x : Q) : (0 <= x)%Q -> 0 <= JS.Math_round x.
Proof.
  intros Hx. unfold JS.Math_round.
  change 0 with (Qfloor 0). apply Qfloor_resp_le.
  apply Qle_trans with x; [done|].
  rewrite <- (Qplus_0_r x) at 1. apply Qplus_le_r. done.
Qed.

Lemma Math_round_mono (x y : Q) : (x <= y)%Q -> JS.Math_round x <= JS.Math_round y.
Proof.
  intros H. unfold JS.Math_round. apply Qfloor_resp_le.
  by apply Qplus_le_l.
Qed.

End Helpers.

(** ** Rounding to binary64 is rounding to the nearest double *)

Section Pow2.
Import Binary64.

Lemma pow2_pos (e : Z) : (0 < pow2 e)%Q.
Proof. apply Qpower_0_lt. reflexivity. Qed.

Lemma pow2_plus (a b : Z) : (pow2 (a + b) == pow2 a * pow2 b)%Q.
Proof. apply Qpower_plus. discriminate. Qed.

Lemma pow2_succ (e : Z) : (pow2 (e + 1) == 2 * pow2 e)%Q.
Proof. rewrite pow2_plus. change (pow2 1) with (2 # 1)%Q. ring. Qed.

Lemma pow2_Z (n : Z) : 0 <= n -> (pow2 n == inject_Z (2 ^ n))%Q.
Proof. intros Hn. unfold pow2. symmetry. by apply (Zpower_Qpower 2 n). Qed.

Lemma pow2_le (a b : Z) : a <= b -> (pow2 a <= pow2 b)%Q.
Proof. intros H. apply Qpower_le_compat_l; [done|discriminate]. Qed.

Lemma pow2_lt (a b : Z) : a < b -> (pow2 a < pow2 b)%Q.
Proof. intros H. apply Qpower_lt_compat_l; [done|reflexivity]. Qed.

Lemma pow2_lt_inv (a b : Z) : (pow2 a < pow2 b)%Q -> a < b.
Proof.
  intros H. destruct (Z_lt_le_dec a b) as [|Hle]; [done|].
  pose proof (pow2_le b a Hle). lra.
Qed.

Lemma ilog2_spec (x : Q) :
  (0 < x)%Q -> (pow2 (ilog2 x) <= x)%Q /\ (x < pow2 (ilog2 x + 1))%Q.
Proof.
  intros Hx. destruct x as [n d]. unfold ilog2. cbn [Qnum Qden].
  assert (Hn : 0 < n) by (unfold Qlt in Hx; simpl in Hx; lia).
  set (a := Z.log2 n). set (b := Z.log2 (Z.pos d)).
  assert (Ha : 0 <= a) by apply Z.log2_nonneg.
  assert (Hb : 0 <= b) by apply Z.log2_nonneg.
  destruct (Z.log2_spec n Hn) as [Ha1 Ha2]. fold a in Ha1, Ha2.
  destruct (Z.log2_spec (Z.pos d) ltac:(lia)) as [Hb1 Hb2]. fold b in Hb1, Hb2.
  assert (Hx' : (n # d == inject_Z n / inject_Z (Z.pos d))%Q) by apply Qmake_Qdiv.
  assert (Hd0 : (0 < inject_Z (Z.pos d))%Q) by (rewrite <- (Zlt_Qlt 0); lia).
  assert (Hxd : ((n # d) * inject_Z (Z.pos d) == inject_Z n)%Q).
  { rewrite Hx'. field. lra. }
  (* bounds in Q *)
  rewrite Zle_Qle, <- pow2_Z in Ha1 by done.
  rewrite Zlt_Qlt, <- pow2_Z in Ha2 by lia.
  rewrite Zle_Qle, <- pow2_Z in Hb1 by done.
  rewrite Zlt_Qlt, <- pow2_Z in Hb2 by lia.
  pose proof (pow2_pos (a - b)) as Hk. pose proof (pow2_pos b) as Hpb.
  assert (Ek : (pow2 (a - b) * pow2 b == pow2 a)%Q).
  { rewrite <- pow2_plus. by replace (a - b + b) with a by lia. }
  assert (Ek1 : (pow2 (a - b + 1) == 2 * pow2 (a - b))%Q) by apply pow2_succ.
  assert (Ek0 : (2 * pow2 (a - b - 1) == pow2 (a - b))%Q).
  { rewrite <- pow2_succ. by replace (a - b - 1 + 1) with (a - b) by lia. }
  assert (Esa : (pow2 (Z.succ a) == 2 * pow2 a)%Q) by apply pow2_succ.
  assert (Esb : (pow2 (Z.succ b) == 2 * pow2 b)%Q) by apply pow2_succ.
  set (x := (n # d)%Q) in *. set (D := inject_Z (Z.pos d)) in *.
  set (N := inject_Z n) in *.
  assert (Hlow : (pow2 (a - b - 1) < x)%Q).
  { apply Qnot_le_lt. intros Hc.
    assert (x * D <= pow2 (a - b - 1) * D)%Q by (apply Qmult_le_compat_r; lra).
    assert (pow2 (a - b - 1) * D < pow2 (a - b - 1) * (2 * pow2 b))%Q.
    { apply Qmult_lt_l; [apply pow2_pos|lra]. }
    nra. }
  assert (Hhigh : (x < pow2 (a - b + 1))%Q).
  { apply Qnot_le_lt. intros Hc.
    assert (pow2 (a - b + 1) * D <= x * D)%Q by (apply Qmult_le_compat_r; lra).
    assert (pow2 (a - b + 1) * pow2 b <= pow2 (a - b + 1) * D)%Q.
    { apply Qmult_le_l; [apply pow2_pos|lra]. }
    nra. }
  destruct (Qle_bool (pow2 (a - b)) x) eqn:E.
  - apply Qle_bool_iff in E. split; [done|done].
  - assert (Hlt : (x < pow2 (a - b))%Q).
    { apply Qnot_le_lt. intros Hc. apply Qle_bool_iff in Hc. congruence. }
    replace (a - b - 1 + 1) with (a - b) by lia. split; [lra|done].
Qed.

End Pow2.

Section Rounding.
Import Binary64.

Lemma Qfloor_bounds (y : Q) :
  (inject_Z (Qfloor y) <= y)%Q /\ (y < inject_Z (Qfloor y) + 1)%Q.
Proof.
  split; [apply Qfloor_le|].
  pose proof (Qlt_floor y) as H. by rewrite inject_Z_plus in H.
Qed.

Lemma inject_Z_succ_le (m n : Z) : m < n -> (inject_Z m + 1 <= inject_Z n)%Q.
Proof.
  intros H. change 1%Q with (inject_Z 1). rewrite <- inject_Z_plus, <- Zle_Qle. lia.
Qed.

Lemma roundHalfEven_near (y : Q) :
  (y - (1 # 2) <= inject_Z (roundHalfEven y))%Q
  /\ (inject_Z (roundHalfEven y) <= y + (1 # 2))%Q.
Proof.
  unfold roundHalfEven. destruct (Qfloor_bounds y) as [H1 H2].
  set (f := Qfloor y) in *.
  destruct (Qcompare_spec (y - inject_Z f) (1 # 2)) as [E|E|E];
    [destruct (Z.even f)|..]; rewrite ?inject_Z_plus;
    change (inject_Z 1) with 1%Q; split; lra.
Qed.

Lemma roundHalfEven_nearest (y : Q) (m : Z) :
  (Qabs (inject_Z (roundHalfEven y) - y) <= Qabs (inject_Z m - y))%Q.
Proof.
  destruct (roundHalfEven_near y) as [H1 H2].
  set (M := roundHalfEven y) in *.
  destruct (Z.lt_trichotomy m M) as [Hm|[->|Hm]].
  - apply inject_Z_succ_le in Hm.
    apply Qabs_case; intros; apply Qabs_case; intros; lra.
  - apply Qle_refl.
  - apply inject_Z_succ_le in Hm.
    apply Qabs_case; intros; apply Qabs_case; intros; lra.
Qed.

Lemma roundHalfEven_tie (y : Q) :
  (Qabs (inject_Z (roundHalfEven y) - y) == 1 # 2)%Q -> Z.even (roundHalfEven y) = true.
Proof.
  unfold roundHalfEven. destruct (Qfloor_bounds y) as [H1 H2].
  set (f := Qfloor y) in *.
  destruct (Qcompare_spec (y - inject_Z f) (1 # 2)) as [E|E|E].
  - destruct (Z.even f) eqn:Ef; [done|]. intros _.
    rewrite Z.even_add, Ef. reflexivity.
  - intros H. exfalso. revert H. apply Qabs_case; intros; lra.
  - intros H. exfalso. revert H. rewrite inject_Z_plus. change (inject_Z 1) with 1%Q.
    apply Qabs_case; intros; lra.
Qed.

Lemma roundHalfEven_nonneg (y : Q) : (0 <= y)%Q -> 0 <= roundHalfEven y.
Proof.
  intros Hy. destruct (roundHalfEven_near y) as [H1 _].
  destruct (Z_lt_le_dec (roundHalfEven y) 0) as [Hneg|]; [|done].
  apply (inject_Z_succ_le _ 0) in Hneg. change (inject_Z 0) with 0%Q in Hneg. lra.
Qed.

Lemma roundHalfEven_upper (y : Q) (n : Z) : (y < inject_Z n)%Q -> roundHalfEven y <= n.
Proof.
  intros Hy. destruct (roundHalfEven_near y) as [_ H2].
  destruct (Z_lt_le_dec n (roundHalfEven y)) as [Hc|]; [|lia].
  apply inject_Z_succ_le in Hc. lra.
Qed.

Lemma roundHalfEven_lower (y : Q) (n : Z) : (inject_Z n <= y)%Q -> n <= roundHalfEven y.
Proof.
  intros Hy. destruct (roundHalfEven_near y) as [H1 _].
  destruct (Z_lt_le_dec (roundHalfEven y) n) as [Hc|]; [|lia].
  apply inject_Z_succ_le in Hc. lra.
Qed.

End Rounding.

Section Nearest.
Import Binary64.

Lemma ulpExponent_spec (x : Q) :
  (0 < x)%Q ->
  -1074 <= ulpExponent x
  /\ (x < inject_Z (2 ^ 53) * pow2 (ulpExponent x))%Q
  /\ (-1074 < ulpExponent x -> (inject_Z (2 ^ 52) * pow2 (ulpExponent x) <= x)%Q).
Proof.
  intros Hx. destruct (ilog2_spec x Hx) as [Hlo Hhi].
  unfold ulpExponent. set (l := ilog2 x) in *.
  set (e := Z.max (l - 52) (-1074)).
  split; [lia|]. split.
  - rewrite <- (pow2_Z 53), <- pow2_plus by done.
    eapply Qlt_le_trans; [apply Hhi|]. apply pow2_le. lia.
  - intros He. rewrite <- (pow2_Z 52), <- pow2_plus by done.
    by replace (52 + e) with l by lia.
Qed.

Lemma scaled_nearest (x u : Q) (K : Z) :
  (0 < u)%Q ->
  (Qabs (inject_Z (roundHalfEven (x / u)) * u - x) <= Qabs (inject_Z K * u - x))%Q.
Proof.
  intros Hu. set (y := (x / u)%Q).
  assert (Hy : (x == y * u)%Q) by (unfold y; field; lra).
  assert (E : forall m : Z, (inject_Z m * u - x == (inject_Z m - y) * u)%Q).
  { intros m. rewrite Hy. ring. }
  rewrite !E, !Qabs_Qmult, (Qabs_pos u) by lra.
  apply Qmult_le_compat_r; [apply roundHalfEven_nearest|lra].
Qed.

Lemma roundPositive_nonneg (x : Q) : (0 < x)%Q -> (0 <= roundPositive x)%Q.
Proof.
  intros Hx. unfold roundPositive.
  pose proof (pow2_pos (ulpExponent x)) as Hu.
  apply Qmult_le_0_compat; [|lra].
  rewrite <- (Zle_Qle 0). apply roundHalfEven_nonneg.
  apply Qle_shift_div_l; lra.
Qed.

Lemma roundPositive_representation (x : Q) :
  (0 < x)%Q ->
  exists m e : Z,
    (roundPositive x == inject_Z m * pow2 e)%Q
    /\ 0 <= m < 2 ^ 53 /\ -1074 <= e <= ulpExponent x + 1.
Proof.
  intros Hx. destruct (ulpExponent_spec x Hx) as (He & Hhi & _).
  unfold roundPositive. set (e := ulpExponent x) in *.
  pose proof (pow2_pos e) as Hu. set (u := pow2 e) in *.
  set (M := roundHalfEven (x / u)).
  assert (HM0 : 0 <= M).
  { apply roundHalfEven_nonneg. apply Qle_shift_div_l; lra. }
  assert (HM1 : M <= 2 ^ 53).
  { apply roundHalfEven_upper. apply Qlt_shift_div_r; lra. }
  destruct (Z_lt_le_dec M (2 ^ 53)) as [Hlt|Hge].
  - exists M, e. split; [reflexivity|]. lia.
  - exists (2 ^ 52), (e + 1). split; [|split; [|lia]].
    + replace M with (2 ^ 53) by lia. rewrite pow2_succ. fold u.
      change (inject_Z (2 ^ 53)) with (9007199254740992 # 1)%Q.
      change (inject_Z (2 ^ 52)) with (4503599627370496 # 1)%Q. ring.
    + split; [|reflexivity]. by vm_compute.
Qed.

Lemma roundPositive_nearest (x d : Q) :
  (0 < x)%Q -> isFloat d -> (Qabs (roundPositive x - x) <= Qabs (d - x))%Q.
Proof.
  intros Hx (m & e' & Hd & Hm & He').
  destruct (ulpExponent_spec x Hx) as (He & Hhi & Hlo).
  unfold roundPositive. set (e := ulpExponent x) in *.
  pose proof (pow2_pos e) as Hu. set (u := pow2 e) in *.
  destruct (Z_le_gt_dec e e') as [Hle|Hgt].
  - assert (Hd' : (d == inject_Z (m * 2 ^ (e' - e)) * u)%Q).
    { rewrite Hd, inject_Z_mult, <- pow2_Z by lia. unfold u.
      rewrite <- Qmult_assoc, <- pow2_plus.
      by replace (e' - e + e) with e' by lia. }
    rewrite Hd'. by apply scaled_nearest.
  - specialize (Hlo ltac:(lia)).
    pose proof (pow2_pos e') as Hu'.
    assert (Hpe : (2 * pow2 e' <= u)%Q).
    { rewrite <- pow2_succ. apply pow2_le. lia. }
    assert (Hmq : (inject_Z m <= inject_Z (2 ^ 53))%Q) by (rewrite <- Zle_Qle; lia).
    assert (Hd1 : (d <= inject_Z (2 ^ 53) * pow2 e')%Q).
    { rewrite Hd. apply Qmult_le_compat_r; lra. }
    assert (E53 : (inject_Z (2 ^ 53) == 2 * inject_Z (2 ^ 52))%Q) by reflexivity.
    assert (H52 : (0 < inject_Z (2 ^ 52))%Q) by reflexivity.
    pose proof (scaled_nearest x u (2 ^ 52) Hu) as Hn.
    set (T := inject_Z (2 ^ 52)) in *. set (T' := inject_Z (2 ^ 53)) in *.
    assert (HdL : (d <= T * u)%Q).
    { eapply Qle_trans; [apply Hd1|]. rewrite E53.
      assert (T * (2 * pow2 e') <= T * u)%Q by (apply Qmult_le_l; lra).
      lra. }
    eapply Qle_trans; [apply Hn|].
    apply Qabs_case; intros; apply Qabs_case; intros; lra.
Qed.

(** Halfway between two neighbours the even multiple of the spacing is
    taken. *)
Lemma roundPositive_tie_even (x : Q) :
  (0 < x)%Q ->
  (Qabs (roundPositive x - x) == pow2 (ulpExponent x) / 2)%Q ->
  Z.even (roundHalfEven (x / pow2 (ulpExponent x))) = true.
Proof.
  intros Hx Htie. apply roundHalfEven_tie.
  unfold roundPositive in Htie.
  pose proof (pow2_pos (ulpExponent x)) as Hu. set (u := pow2 (ulpExponent x)) in *.
  set (y := (x / u)%Q) in *. set (M := roundHalfEven y) in *.
  assert (E : (inject_Z M * u - x == (inject_Z M - y) * u)%Q).
  { unfold y. field. lra. }
  rewrite E, Qabs_Qmult, (Qabs_pos u) in Htie by lra.
  apply (Qmult_inj_r _ _ u); [lra|]. rewrite Htie. field.
Qed.

Lemma isFloat_opp (d : Q) : isFloat d -> isFloat (- d).
Proof.
  intros (m & e & Hd & Hm & He). exists (- m), e.
  split; [|split; [lia|done]]. rewrite Hd, inject_Z_opp. ring.
Qed.

Lemma isFloat_comp (d d' : Q) : (d == d')%Q -> isFloat d -> isFloat d'.
Proof. intros E (m & e & Hd & H). exists m, e. by rewrite <- E. Qed.

End Nearest.

Section Round.
Import Binary64.

Lemma isDouble_isFloat (q : Q) : isDouble q -> isFloat q.
Proof. intros (m & e & Hq & Hm & He). exists m, e. split; [done|]. split; [done|lia]. Qed.

Lemma ulpExponent_range (x : Q) :
  (0 < x)%Q -> (x < pow2 1023)%Q -> ulpExponent x + 1 <= 971.
Proof.
  intros Hx Hr. destruct (ilog2_spec x Hx) as [Hlo _].
  assert (ilog2 x < 1023) by (apply pow2_lt_inv; lra).
  unfold ulpExponent. lia.
Qed.

Lemma round_comp (x y : Q) : (x == y)%Q -> round x = round y.
Proof. intros E. unfold round. by rewrite (Qred_complete x y E). Qed.

Lemma round_representation (x : Q) :
  exists m e : Z,
    (round x == inject_Z m * pow2 e)%Q /\ Z.abs m < 2 ^ 53 /\ -1074 <= e
    /\ (inDoubleRange x -> e <= 971).
Proof.
  unfold round, inDoubleRange. pose proof (Qred_correct x) as Ex.
  set (x' := Qred x) in *.
  destruct (Qcompare_spec x' 0) as [E|E|E].
  - exists 0, 0. split; [reflexivity|]. split; [by vm_compute|]. split; lia.
  - assert (Hpos : (0 < - x')%Q) by lra.
    destruct (roundPositive_representation (- x') Hpos) as (m & e & Hq & Hm & He).
    exists (- m), e. split; [|split; [lia|split; [lia|]]].
    + rewrite Qred_correct, Hq, inject_Z_opp. ring.
    + intros Hr. rewrite <- Ex, Qabs_neg in Hr by lra.
      pose proof (ulpExponent_range (- x') Hpos Hr). lia.
  - destruct (roundPositive_representation x' E) as (m & e & Hq & Hm & He).
    exists m, e. split; [|split; [lia|split; [lia|]]].
    + by rewrite Qred_correct.
    + intros Hr. rewrite <- Ex, Qabs_pos in Hr by lra.
      pose proof (ulpExponent_range x' E Hr). lia.
Qed.

Lemma round_isFloat (x : Q) : isFloat (round x).
Proof.
  destruct (round_representation x) as (m & e & Hq & Hm & He & _). by exists m, e.
Qed.

Lemma round_isDouble (x : Q) : inDoubleRange x -> isDouble (round x).
Proof.
  intros Hr. destruct (round_representation x) as (m & e & Hq & Hm & He & Hhi).
  exists m, e. split; [done|]. split; [done|]. split; [done|by apply Hhi].
Qed.

Lemma round_nearest_float (x d : Q) :
  isFloat d -> (Qabs (round x - x) <= Qabs (d - x))%Q.
Proof.
  intros Hd. unfold round. pose proof (Qred_correct x) as Ex.
  set (x' := Qred x) in *. rewrite <- Ex.
  destruct (Qcompare_spec x' 0) as [E|E|E].
  - rewrite E. change (Qabs (0 - 0)) with 0%Q. apply Qabs_nonneg.
  - assert (Hpos : (0 < - x')%Q) by lra.
    pose proof (roundPositive_nearest (- x') (- d) Hpos (isFloat_opp d Hd)) as Hn.
    rewrite Qred_correct.
    assert (E1 : (- roundPositive (- x') - x' == - (roundPositive (- x') - - x'))%Q) by ring.
    assert (E2 : (d - x' == - (- d - - x'))%Q) by ring.
    by rewrite E1, E2, !Qabs_opp.
  - rewrite Qred_correct. by apply roundPositive_nearest.
Qed.

Lemma round_nearest (x : Q) : inDoubleRange x -> nearestDouble x (round x).
Proof.
  intros Hr. split; [by apply round_isDouble|].
  intros d Hd. by apply round_nearest_float, isDouble_isFloat.
Qed.

Lemma round_nonneg (x : Q) : (0 <= x)%Q -> (0 <= round x)%Q.
Proof.
  intros Hx. unfold round. pose proof (Qred_correct x) as Ex.
  set (x' := Qred x) in *.
  destruct (Qcompare_spec x' 0) as [E|E|E]; [apply Qle_refl|lra|].
  rewrite Qred_correct. by apply roundPositive_nonneg.
Qed.

Lemma round_mono (x y : Q) : (x <= y)%Q -> (round x <= round y)%Q.
Proof.
  intros Hxy. apply Qnot_lt_le. intros Hlt.
  pose proof (round_nearest_float x (round y) (round_isFloat y)) as Hx.
  pose proof (round_nearest_float y (round x) (round_isFloat x)) as Hy.
  assert (E : (x == y)%Q).
  { revert Hx Hy. do 4 (apply Qabs_case; intros ?); intros; lra. }
  rewrite (round_comp x y E) in Hlt. lra.
Qed.

Lemma round_three_halves : round (3 # 2) = (3 # 2)%Q.
Proof. by vm_compute. Qed.

End Round.

(** The ratio the loader stores is a double nearest to the exact ratio of
    the natural dimensions. *)
Lemma loadImageDimensions_ratio (imageFile : ImageFile) (naturalWidth naturalHeight : Z) :
  inDoubleRange (inject_Z naturalWidth / inject_Z naturalHeight) ->
  nearestDouble (inject_Z naturalWidth / inject_Z naturalHeight)
    (aspectRatio (loadImageDimensions imageFile (onload naturalWidth naturalHeight))).
Proof. apply round_nearest. Qed.

(** The quotients of the layout are far inside the range of the doubles:
    an image that decodes with positive natural dimensions has a positive
    ratio, and a column width over it is in range (2^53 bounds every
    integer the page can hold exactly). *)
Lemma decoded_inDoubleRange (imageFile : ImageFile)
    (naturalWidth naturalHeight imageWidth : Z) :
  0 < naturalWidth ->
  0 < naturalHeight <= 2 ^ 53 ->
  Z.abs imageWidth <= 2 ^ 53 ->
  let im := loadImageDimensions imageFile (onload naturalWidth naturalHeight) in
  dimensioned im /\ inDoubleRange (inject_Z imageWidth / aspectRatio im).
Proof.
  intros Hw Hh Hi im. unfold dimensioned, inDoubleRange.
  change (aspectRatio im)
    with (Binary64.round (inject_Z naturalWidth / inject_Z naturalHeight)).
  set (r := Binary64.round (inject_Z naturalWidth / inject_Z naturalHeight)).
  set (T := inject_Z (2 ^ 53)).
  assert (HT : (0 < T)%Q) by reflexivity.
  assert (Hr : (1 / T <= r)%Q).
  { assert (E : Binary64.round (1 / T) = (1 / T)%Q) by (by vm_compute).
    rewrite <- E. apply round_mono.
    assert (Hnh : (0 < inject_Z naturalHeight)%Q) by (rewrite <- (Zlt_Qlt 0); lia).
    assert (Hnh' : (inject_Z naturalHeight <= T)%Q) by (unfold T; rewrite <- Zle_Qle; lia).
    assert (Hnw : (1 <= inject_Z naturalWidth)%Q) by (rewrite <- (Zle_Qle 1); lia).
    apply Qle_shift_div_l; [done|].
    assert (E1 : (1 / T * inject_Z naturalHeight <= 1 / T * T)%Q)
      by (apply Qmult_le_l; [reflexivity|done]).
    assert (E2 : (1 / T * T == 1)%Q) by reflexivity.
    lra. }
  assert (HTinv : (0 < 1 / T)%Q) by reflexivity.
  assert (Hr0 : (0 < r)%Q) by lra.
  split; [exact Hr0|].
  assert (Hinv : (/ r <= T)%Q).
  { apply Qle_shift_inv_r; [done|].
    assert (1 / T * T <= T * r)%Q by (rewrite (Qmult_comm T r); apply Qmult_le_compat_r; lra).
    assert (1 / T * T == 1)%Q by reflexivity. lra. }
  assert (Hinv0 : (0 < / r)%Q) by by apply Qinv_lt_0_compat.
  assert (Hi1 : (- T <= inject_Z imageWidth)%Q).
  { unfold T. rewrite <- inject_Z_opp, <- Zle_Qle. lia. }
  assert (Hi2 : (inject_Z imageWidth <= T)%Q) by (unfold T; rewrite <- Zle_Qle; lia).
  assert (Hbig : (T * T < (2 # 1) ^ 1023)%Q) by reflexivity.
  apply Qabs_Qlt_condition. unfold Qdiv.
  set (B := ((2 # 1) ^ 1023)%Q) in *.
  set (w := inject_Z imageWidth) in *. set (i := (/ r)%Q) in *.
  assert (H1 : (w * i <= T * i)%Q) by (apply Qmult_le_compat_r; lra).
  assert (H2 : (- T * i <= w * i)%Q) by (apply Qmult_le_compat_r; lra).
  assert (H3 : (T * i <= T * T)%Q) by (apply Qmult_le_l; lra).
  split; lra.
Qed.

(** ** One step and the whole map *)

Section Placement.

Variable imageWidth : Z.

(** What the callback does on a non-empty [columnHeights]. *)
Lemma placeImage_firstMin (columnHeights : list Z) (im : ImageWithDimensions) :
  columnHeights <> [] ->
  exists (c : nat) (m : Z),
    firstMin columnHeights c m
    /\ placeImage imageWidth columnHeights im
       = ({| image := im; column := Z.of_nat c; top := m;
             calculatedHeight := heightFor imageWidth im;
             calculatedWidth := imageWidth |},
          <[c := m + (heightFor imageWidth im + gap)]> columnHeights).
Proof.
  intros Hne. destruct (shortestColumn_firstMin _ Hne) as (c & m & Hc & Hmin).
  exists c, m. split; [done|]. unfold placeImage. rewrite Hc.
  destruct Hmin as (Hl & _). rewrite get_of_nat, Hl. simpl.
  by rewrite (addAt_of_nat _ _ m).
Qed.

Lemma placeImage_length (columnHeights : list Z) (im : ImageWithDimensions) :
  length (snd (placeImage imageWidth columnHeights im)) = length columnHeights.
Proof. unfold placeImage. simpl. apply addAt_length. Qed.

Lemma mapImages_cons (columnHeights : list Z) im rest :
  mapImages imageWidth columnHeights (im :: rest)
  = (fst (placeImage imageWidth columnHeights im)
       :: fst (mapImages imageWidth (snd (placeImage imageWidth columnHeights im)) rest),
     snd (mapImages imageWidth (snd (placeImage imageWidth columnHeights im)) rest)).
Proof.
  cbn [mapImages].
  destruct (placeImage imageWidth columnHeights im) as [p hs1]. cbn [fst snd].
  by destruct (mapImages imageWidth hs1 rest).
Qed.

Lemma mapImages_heights_length (images : list ImageWithDimensions) :
  forall columnHeights,
    length (snd (mapImages imageWidth columnHeights images)) = length columnHeights.
Proof.
  induction images as [|im rest IH]; intros hs; [done|].
  rewrite mapImages_cons. simpl. rewrite IH. apply placeImage_length.
Qed.

Lemma mapImages_length (images : list ImageWithDimensions) :
  forall columnHeights,
    length (fst (mapImages imageWidth columnHeights images)) = length images.
Proof.
  induction images as [|im rest IH]; intros hs; [done|].
  rewrite mapImages_cons. simpl. by rewrite IH.
Qed.

(** The map keeps every image, in the order of the input. *)
Lemma mapImages_image (images : list ImageWithDimensions) :
  forall columnHeights,
    map image (fst (mapImages imageWidth columnHeights images)) = images.
Proof.
  induction images as [|im rest IH]; intros hs; [done|].
  rewrite mapImages_cons. simpl. by rewrite IH.
Qed.

Lemma mapImages_width (images : list ImageWithDimensions) :
  forall columnHeights,
    Forall (fun p => calculatedWidth p = imageWidth
                     /\ calculatedHeight p = heightFor imageWidth (image p))
           (fst (mapImages imageWidth columnHeights images)).
Proof.
  induction images as [|im rest IH]; intros hs; [constructor|].
  rewrite mapImages_cons. simpl. constructor; [done|apply IH].
Qed.

(** Mapping a concatenation: the second part starts from the accumulators
    the first part leaves. *)
Lemma mapImages_app (l1 l2 : list ImageWithDimensions) :
  forall columnHeights,
    mapImages imageWidth columnHeights (l1 ++ l2)
    = (fst (mapImages imageWidth columnHeights l1)
         ++ fst (mapImages imageWidth (snd (mapImages imageWidth columnHeights l1)) l2),
       snd (mapImages imageWidth (snd (mapImages imageWidth columnHeights l1)) l2)).
Proof.
  induction l1 as [|im rest IH]; intros hs.
  - simpl. by destruct (mapImages imageWidth hs l2).
  - rewrite <- app_comm_cons. rewrite !mapImages_cons. rewrite IH. done.
Qed.

(** Every produced column is an index of the array. *)
Lemma mapImages_column (images : list ImageWithDimensions) :
  forall columnHeights,
    columnHeights <> [] ->
    Forall (fun p => 0 <= column p < Z.of_nat (length columnHeights))
           (fst (mapImages imageWidth columnHeights images)).
Proof.
  induction images as [|im rest IH]; intros hs Hne; [constructor|].
  rewrite mapImages_cons.
  destruct (placeImage_firstMin hs im Hne) as (c & m & (Hl & _) & Heq).
  rewrite Heq. cbn [fst snd]. apply lookup_lt_Some in Hl. constructor.
  - simpl. lia.
  - assert (Hlen : length (<[c := m + (heightFor imageWidth im + gap)]> hs) = length hs)
      by apply length_insert.
    rewrite <- Hlen. apply IH. intros E. rewrite E in Hlen. simpl in Hlen. lia.
Qed.

End Placement.

Lemma replicate_nonempty (k : nat) : (1 <= k)%nat -> replicate k 0 <> @nil Z.
Proof. destruct k; [lia|done]. Qed.

Lemma layout_run (fs : bool) (vw : Z) (images : list ImageWithDimensions) (k : nat) :
  calculateWaterfallLayout fs vw images k = fst (runLayout fs vw images k).
Proof. by destruct images. Qed.

(** ** Properties of the layout *)

(** C8. On the empty input the layout is the empty sequence, and the content
    width and height computed from it are both 0; every one of the three is
    an ordinary value. *)
Theorem C8_empty_input (isFullscreen : bool) (innerWidth : Z) (columnCount : nat) :
  calculateWaterfallLayout isFullscreen innerWidth [] columnCount = []
  /\ containerWidth (calculateWaterfallLayout isFullscreen innerWidth [] columnCount)
       columnCount = 0
  /\ containerHeight (calculateWaterfallLayout isFullscreen innerWidth [] columnCount)
       columnCount = 0.
Proof. repeat split. Qed.

(** C3. For a non-empty input of dimensioned images and at least one column,
    the output has one entry per image, the entries carry the images in the
    order of the input, and every column index lies in [0, columnCount). *)
Theorem C3_every_image_once_in_order (isFullscreen : bool) (innerWidth : Z)
    (images : list ImageWithDimensions) (columnCount : nat) :
  images <> [] ->
  (1 <= columnCount)%nat ->
  Forall dimensioned images ->
  let positioned := calculateWaterfallLayout isFullscreen innerWidth images columnCount in
  length positioned = length images
  /\ map image positioned = images
  /\ Forall (fun p => 0 <= column p < Z.of_nat columnCount) positioned.
Proof.
  intros _ Hk _ positioned. subst positioned. rewrite layout_run. unfold runLayout.
  split; [apply mapImages_length|]. split; [apply mapImages_image|].
  pose proof (mapImages_column
                (imageWidthOf (containerMaxWidth isFullscreen innerWidth) columnCount)
                images (replicate columnCount 0) (replicate_nonempty _ Hk)) as H.
  by rewrite length_replicate in H.
Qed.

Lemma C3_every_image_once_in_order_witness :
  let positioned := calculateWaterfallLayout false 664 exampleImages 2 in
  length positioned = length exampleImages
  /\ map image positioned = exampleImages
  /\ Forall (fun p => 0 <= column p < Z.of_nat 2) positioned.
Proof.
  apply (C3_every_image_once_in_order false 664 exampleImages 2).
  - discriminate.
  - lia.
  - repeat constructor.
Defined.

Lemma Math_round_bounds (q : Q) :
  (inject_Z (JS.Math_round q) - (1 # 2) <= q)%Q
  /\ (q < inject_Z (JS.Math_round q) + (1 # 2))%Q.
Proof.
  unfold JS.Math_round. destruct (Qfloor_bounds (q + (1 # 2))) as [H1 H2].
  split; lra.
Qed.

Lemma heightFor_nearest (imageWidth : Z) (im : ImageWithDimensions) :
  inDoubleRange (inject_Z imageWidth / aspectRatio im) ->
  exists q : Q,
    nearestDouble (inject_Z imageWidth / aspectRatio im) q
    /\ (inject_Z (heightFor imageWidth im) - (1 # 2) <= q)%Q
    /\ (q < inject_Z (heightFor imageWidth im) + (1 # 2))%Q.
Proof.
  intros Hr. exists (Binary64.div (inject_Z imageWidth) (aspectRatio im)).
  split; [by apply round_nearest|]. apply Math_round_bounds.
Qed.

Lemma imageWidthOf_floor (containerMaxWidth : Z) (columnCount : nat) :
  (1 <= columnCount)%nat ->
  let k := Z.of_nat columnCount in
  let w := imageWidthOf containerMaxWidth columnCount in
  k * w <= containerMaxWidth - 16 * (k - 1) < k * w + k.
Proof.
  intros Hk k w. subst k w. unfold imageWidthOf, availableWidth, gap.
  set (k := Z.of_nat columnCount). assert (Hk0 : 0 < k) by (unfold k; lia).
  set (a := containerMaxWidth - 16 * (k - 1)).
  pose proof (Z.mul_div_le a k Hk0). pose proof (Z.mul_succ_div_gt a k Hk0). lia.
Qed.



(** ** Accumulators that only grow

    When every placed height + gap is non-negative, an accumulator never
    decreases, and an image placed later in a column starts at or below the
    accumulator the earlier ones left. *)

Section Growing.

Variable imageWidth : Z.

Lemma placeImage_grows (columnHeights : list Z) (im : ImageWithDimensions) :
  columnHeights <> [] ->
  growing imageWidth im ->
  forall j x, columnHeights !! j = Some x ->
    exists y, snd (placeImage imageWidth columnHeights im) !! j = Some y /\ x <= y.
Proof.
  intros Hne Hg j x Hj.
  destruct (placeImage_firstMin imageWidth columnHeights im Hne)
    as (c & m & (Hc & _) & ->).
  cbn [snd]. unfold growing in Hg. destruct (decide (c = j)) as [->|Hcj].
  - exists (m + (heightFor imageWidth im + gap)). split.
    + apply list_lookup_insert_eq. by eapply lookup_lt_Some.
    + rewrite Hc in Hj. inversion Hj. lia.
  - exists x. split; [|lia]. by rewrite list_lookup_insert_ne.
Qed.

Lemma placeImage_nonempty (columnHeights : list Z) (im : ImageWithDimensions) :
  columnHeights <> [] -> snd (placeImage imageWidth columnHeights im) <> [].
Proof.
  intros Hne E. pose proof (placeImage_length imageWidth columnHeights im) as H.
  rewrite E in H. destruct columnHeights; [done|]. simpl in H. lia.
Qed.

Lemma mapImages_grows (images : list ImageWithDimensions) :
  forall columnHeights,
    columnHeights <> [] ->
    Forall (growing imageWidth) images ->
    forall j x, columnHeights !! j = Some x ->
      exists y, snd (mapImages imageWidth columnHeights images) !! j = Some y /\ x <= y.
Proof.
  induction images as [|im rest IH]; intros hs Hne Hall j x Hj.
  - exists x. split; [done|lia].
  - inversion Hall as [|? ? Him Hrest]; subst.
    rewrite mapImages_cons. cbn [snd].
    destruct (placeImage_grows hs im Hne Him j x Hj) as (y & Hy & Hxy).
    destruct (IH _ (placeImage_nonempty hs im Hne) Hrest j y Hy) as (z & Hz & Hyz).
    exists z. split; [done|lia].
Qed.

(** An image placed in column [c] starts no higher than what the column
    held when the map began. *)
Lemma mapImages_top_ge (images : list ImageWithDimensions) :
  forall columnHeights,
    columnHeights <> [] ->
    Forall (growing imageWidth) images ->
    forall p (c : nat) x,
      p ∈ fst (mapImages imageWidth columnHeights images) ->
      column p = Z.of_nat c ->
      columnHeights !! c = Some x ->
      x <= top p.
Proof.
  induction images as [|im rest IH]; intros hs Hne Hall p c x Hp Hc Hx.
  - inversion Hp.
  - inversion Hall as [|? ? Him Hrest]; subst.
    rewrite mapImages_cons in Hp. cbn [fst] in Hp.
    apply elem_of_cons in Hp as [->|Hp].
    + destruct (placeImage_firstMin imageWidth hs im Hne)
        as (c' & m & (Hc' & _) & Heq).
      rewrite Heq in Hc |- *. cbn [fst column top] in *.
      apply Nat2Z.inj in Hc. subst c'. rewrite Hc' in Hx. inversion Hx. lia.
    + destruct (placeImage_grows hs im Hne Him c x Hx) as (y & Hy & Hxy).
      pose proof (IH _ (placeImage_nonempty hs im Hne) Hrest p c y Hp Hc Hy).
      lia.
Qed.

(** No overlap inside a column, from any starting accumulators. *)
Lemma mapImages_no_overlap (images : list ImageWithDimensions) :
  forall columnHeights,
    columnHeights <> [] ->
    Forall (growing imageWidth) images ->
    forall (i j : nat) p q,
      (i < j)%nat ->
      fst (mapImages imageWidth columnHeights images) !! i = Some p ->
      fst (mapImages imageWidth columnHeights images) !! j = Some q ->
      column p = column q ->
      top p + calculatedHeight p + gap <= top q.
Proof.
  induction images as [|im rest IH]; intros hs Hne Hall i j p q Hij Hp Hq Hcol.
  - done.
  - inversion Hall as [|? ? Him Hrest]; subst.
    rewrite mapImages_cons in Hp, Hq.
    pose proof (placeImage_nonempty hs im Hne) as Hne'.
    destruct (placeImage_firstMin imageWidth hs im Hne)
      as (c & m & (Hc & _) & Heq).
    rewrite Heq in Hp, Hq, Hne'. cbn [fst snd] in Hp, Hq, Hne'.
    destruct j as [|j]; [lia|]. change (fst (mapImages imageWidth (<[c := m + (heightFor imageWidth im + gap)]> hs) rest) !! j = Some q) in Hq.
    destruct i as [|i].
    + injection Hp as <-.
      cbn [column top calculatedHeight] in *.
      assert (Hin : q ∈ fst (mapImages imageWidth
                      (<[c := m + (heightFor imageWidth im + gap)]> hs) rest))
        by (by eapply list_elem_of_lookup_2).
      assert (Hnew : <[c := m + (heightFor imageWidth im + gap)]> hs !! c
                     = Some (m + (heightFor imageWidth im + gap))).
      { apply list_lookup_insert_eq. by eapply lookup_lt_Some. }
      pose proof (mapImages_top_ge rest _ Hne' Hrest q c
                    (m + (heightFor imageWidth im + gap)) Hin (eq_sym Hcol) Hnew).
      lia.
    + change (fst (mapImages imageWidth (<[c := m + (heightFor imageWidth im + gap)]> hs) rest) !! i = Some p) in Hp.
      eapply (IH _ Hne' Hrest i j); eauto. lia.
Qed.

(** The placed heights give back the condition on the images. *)
Lemma growing_of_positioned (images : list ImageWithDimensions) :
  forall columnHeights,
    Forall (fun p => 0 <= calculatedHeight p + gap)
           (fst (mapImages imageWidth columnHeights images)) ->
    Forall (growing imageWidth) images.
Proof.
  induction images as [|im rest IH]; intros hs H; [constructor|].
  rewrite mapImages_cons in H. cbn [fst] in H.
  inversion H as [|? ? H1 H2]; subst. constructor; [exact H1|by eapply IH].
Qed.

End Growing.

(** A non-negative column width gives non-negative heights to dimensioned
    images, so the condition of this section holds. *)
Lemma heightFor_nonneg (imageWidth : Z) (im : ImageWithDimensions) :
  0 <= imageWidth -> dimensioned im -> 0 <= heightFor imageWidth im.
Proof.
  intros Hw Him. unfold heightFor, Binary64.div.
  apply Math_round_nonneg, round_nonneg.
  unfold Qdiv. apply Qmult_le_0_compat.
  - change 0%Q with (inject_Z 0). by rewrite <- Zle_Qle.
  - apply Qlt_le_weak, Qinv_lt_0_compat, Him.
Qed.

(** The column width is non-negative as soon as the container is at least
    as wide as the gaps between the columns. *)
Lemma imageWidthOf_nonneg (containerWidth : Z) (columnCount : nat) :
  (1 <= columnCount)%nat ->
  gap * (Z.of_nat columnCount - 1) <= containerWidth ->
  0 <= imageWidthOf containerWidth columnCount.
Proof.
  intros Hk Hw. unfold imageWidthOf, availableWidth. apply Z.div_pos; lia.
Qed.

Lemma layout_heights_nonneg (isFullscreen : bool) (innerWidth : Z)
    (images : list ImageWithDimensions) (columnCount : nat) :
  0 <= imageWidthOf (containerMaxWidth isFullscreen innerWidth) columnCount ->
  Forall dimensioned images ->
  Forall (fun p => 0 <= calculatedHeight p)
         (calculateWaterfallLayout isFullscreen innerWidth images columnCount).
Proof.
  intros Hw Hall. rewrite layout_run. unfold runLayout.
  generalize (replicate columnCount 0).
  induction Hall as [|im rest Him _ IH]; intros hs; [constructor|].
  rewrite mapImages_cons. cbn [fst]. constructor; [|apply IH].
  unfold placeImage. cbn [fst calculatedHeight]. by apply heightFor_nonneg.
Qed.

Section Balance.

Variable imageWidth : Z.
Variable bound : Z.
Hypothesis bound_nonneg : 0 <= bound.

Lemma placeImage_spread (columnHeights : list Z) (im : ImageWithDimensions) :
  columnHeights <> [] ->
  0 <= heightFor imageWidth im + gap <= bound ->
  spreadWithin bound columnHeights ->
  spreadWithin bound (snd (placeImage imageWidth columnHeights im)).
Proof.
  intros Hne Hd Hsp.
  destruct (placeImage_firstMin imageWidth columnHeights im Hne)
    as (c & m & (Hc & Hmin & _) & ->).
  cbn [snd]. intros j x j' y Hj Hj'.
  assert (Hlt : (c < length columnHeights)%nat) by (by eapply lookup_lt_Some).
  destruct (decide (j = c)) as [->|Hcj]; destruct (decide (j' = c)) as [->|Hcj'].
  - rewrite list_lookup_insert_eq in Hj, Hj' by done. simplify_eq. lia.
  - rewrite list_lookup_insert_eq in Hj by done.
    rewrite list_lookup_insert_ne in Hj' by done.
    simplify_eq. pose proof (Hmin _ _ Hj'). lia.
  - rewrite list_lookup_insert_ne in Hj by done.
    rewrite list_lookup_insert_eq in Hj' by done.
    simplify_eq. pose proof (Hsp _ _ _ _ Hj Hc). lia.
  - rewrite list_lookup_insert_ne in Hj, Hj' by done. by eapply Hsp.
Qed.

Lemma mapImages_spread (images : list ImageWithDimensions) :
  forall columnHeights,
    columnHeights <> [] ->
    Forall (fun im => 0 <= heightFor imageWidth im + gap <= bound) images ->
    spreadWithin bound columnHeights ->
    spreadWithin bound (snd (mapImages imageWidth columnHeights images)).
Proof.
  induction images as [|im rest IH]; intros hs Hne Hall Hsp; [done|].
  inversion Hall as [|? ? Him Hrest]; subst.
  rewrite mapImages_cons. cbn [snd]. apply IH.
  - by apply placeImage_nonempty.
  - done.
  - by apply placeImage_spread.
Qed.

End Balance.

Lemma spreadWithin_replicate (bound : Z) (k : nat) :
  0 <= bound -> spreadWithin bound (replicate k 0).
Proof.
  intros Hb j x j' y Hj Hj'.
  apply lookup_replicate in Hj as [-> _]. apply lookup_replicate in Hj' as [-> _]. lia.
Qed.

(** A non-empty list of placed images has one of largest height + gap. *)
Lemma largest_placed (positioned : list PositionedImage) :
  positioned <> [] ->
  exists p, p ∈ positioned
    /\ forall q, q ∈ positioned ->
         calculatedHeight q + gap <= calculatedHeight p + gap.
Proof.
  induction positioned as [|a l IH]; [done|]. intros _.
  destruct l as [|b l'].
  - exists a. split; [by left|]. intros q Hq. apply elem_of_cons in Hq as [->|Hq]; [lia|].
    inversion Hq.
  - destruct IH as (p & Hp & Hmax); [done|].
    destruct (Z_le_gt_dec (calculatedHeight a) (calculatedHeight p)).
    + exists p. split; [by right|]. intros q Hq.
      apply elem_of_cons in Hq as [->|Hq]; [lia|by apply Hmax].
    + exists a. split; [by left|]. intros q Hq.
      apply elem_of_cons in Hq as [->|Hq]; [lia|]. specialize (Hmax _ Hq). lia.
Qed.

Lemma heights_of_positioned (P : Z -> Prop) (imageWidth : Z)
    (images : list ImageWithDimensions) :
  forall columnHeights,
    Forall (fun p => P (calculatedHeight p))
           (fst (mapImages imageWidth columnHeights images)) ->
    Forall (fun im => P (heightFor imageWidth im)) images.
Proof.
  induction images as [|im rest IH]; intros hs H; [constructor|].
  rewrite mapImages_cons in H. cbn [fst] in H.
  inversion H as [|? ? H1 H2]; subst. constructor; [exact H1|by eapply IH].
Qed.

Lemma Math_max_elem (l : list Z) (hi : Z) :
  JS.Math_max l = Some hi -> hi ∈ l /\ forall x, x ∈ l -> x <= hi.
Proof.
  intros H. destruct l as [|a l]; [done|].
  destruct (Math_max_Some (a :: l)) as (m & Hm & Hin & Hub); [done|].
  rewrite H in Hm. by injection Hm as <-.
Qed.

Lemma Math_min_elem (l : list Z) (lo : Z) :
  JS.Math_min l = Some lo -> lo ∈ l /\ forall x, x ∈ l -> lo <= x.
Proof.
  intros H. destruct l as [|a l]; [done|].
  destruct (Math_min_Some (a :: l)) as (m & Hm & Hin & Hlb); [done|].
  rewrite H in Hm. by injection Hm as <-.
Qed.

(** C6 as stated fails when a placed height + gap is negative: in a
    viewport 160 wide with 10 columns the container is 128 wide, less than
    the nine gaps, and the column width is -2; three tall images get the
    height -32 and stack upwards in column 0 at tops 0, -16 and -32, so the
    third starts above the first one's top + height + gap = -16. *)
Lemma C6_counterexample :
  ~ noOverlap (calculateWaterfallLayout false 160 [tall; tall; tall] 10).
Proof.
  intros H.
  assert (Hex : exists p q,
             calculateWaterfallLayout false 160 [tall; tall; tall] 10 !! 0%nat = Some p
             /\ calculateWaterfallLayout false 160 [tall; tall; tall] 10 !! 2%nat = Some q
             /\ column p = column q
             /\ top q < top p + calculatedHeight p + gap).
  { vm_compute. eexists _, _. repeat split; reflexivity. }
  destruct Hex as (p & q & Hp & Hq & Hcol & Hlt).
  specialize (H 0%nat 2%nat p q ltac:(lia) Hp Hq Hcol). lia.
Qed.

(** C6, amended.  Provided no placed height + gap is negative (as is the
    case whenever the column width is non-negative), two images of one
    column never overlap: the one placed later starts at or below the top of
    the earlier one plus its height plus the gap. *)
Theorem C6_no_overlap (isFullscreen : bool) (innerWidth : Z)
    (images : list ImageWithDimensions) (columnCount : nat) :
  (1 <= columnCount)%nat ->
  Forall dimensioned images ->
  Forall (fun p => 0 <= calculatedHeight p + gap)
         (calculateWaterfallLayout isFullscreen innerWidth images columnCount) ->
  noOverlap (calculateWaterfallLayout isFullscreen innerWidth images columnCount).
Proof.
  intros Hk _ Hg. rewrite layout_run in *. unfold runLayout in *.
  intros i j p q Hij Hp Hq Hcol.
  eapply (mapImages_no_overlap _ images (replicate columnCount 0)); eauto.
  - by apply replicate_nonempty.
  - by eapply growing_of_positioned.
Qed.

Lemma C6_no_overlap_witness :
  noOverlap (calculateWaterfallLayout false 664 exampleImages 2).
Proof.
  apply (C6_no_overlap false 664 exampleImages 2).
  - lia.
  - repeat constructor.
  - vm_compute. repeat constructor; discriminate.
Defined.

(** C5 as stated fails when a placed height + gap is negative: in a
    viewport 160 wide with 10 columns one tall image leaves the accumulators
    at -16 and 0, a spread of 16, while the only height + gap placed is
    -16. *)
Lemma C5_counterexample :
  ~ balanced (calculateWaterfallLayout false 160 [tall] 10)
             (finalColumnHeights false 160 [tall] 10).
Proof.
  intros H. destruct (H 0 (-16)) as (p & Hp & Hle); [reflexivity..|].
  assert (Hall : Forall (fun p => calculatedHeight p + gap = -16)
                        (calculateWaterfallLayout false 160 [tall] 10))
    by (vm_compute; repeat constructor).
  rewrite Forall_forall in Hall. rewrite (Hall p Hp) in Hle. lia.
Qed.

(** C5, amended.  For a non-empty input, provided no placed height + gap is
    negative (as is the case whenever the column width is non-negative), the
    largest final accumulator exceeds the smallest by at most the height +
    gap of a placed image, hence by at most the largest such value. *)
Theorem C5_column_balance (isFullscreen : bool) (innerWidth : Z)
    (images : list ImageWithDimensions) (columnCount : nat) :
  images <> [] ->
  (1 <= columnCount)%nat ->
  Forall dimensioned images ->
  Forall (fun p => 0 <= calculatedHeight p + gap)
         (calculateWaterfallLayout isFullscreen innerWidth images columnCount) ->
  balanced (calculateWaterfallLayout isFullscreen innerWidth images columnCount)
           (finalColumnHeights isFullscreen innerWidth images columnCount).
Proof.
  intros Hne Hk _ Hg. unfold finalColumnHeights. rewrite layout_run in *.
  unfold runLayout in *.
  set (w := imageWidthOf (containerMaxWidth isFullscreen innerWidth) columnCount) in *.
  set (ps := fst (mapImages w (replicate columnCount 0) images)) in *.
  assert (Hps : ps <> []).
  { intros E. apply (f_equal length) in E. unfold ps in E.
    rewrite mapImages_length in E. destruct images; [done|]. simpl in E. lia. }
  destruct (largest_placed ps Hps) as (p & Hp & Hmax).
  intros hi lo Hhi Hlo. exists p. split; [done|].
  apply Math_max_elem in Hhi as [Hhi _]. apply Math_min_elem in Hlo as [Hlo _].
  apply list_elem_of_lookup in Hhi as [j Hj]. apply list_elem_of_lookup in Hlo as [j' Hj'].
  assert (Hb : 0 <= calculatedHeight p + gap).
  { rewrite Forall_forall in Hg. by apply Hg. }
  eapply (mapImages_spread w (calculatedHeight p + gap) Hb images
            (replicate columnCount 0)); eauto.
  - by apply replicate_nonempty.
  - apply (heights_of_positioned
             (fun h => 0 <= h + gap <= calculatedHeight p + gap) w images
             (replicate columnCount 0)).
    fold ps. rewrite Forall_forall in Hg |- *. intros q Hq. split; [by apply Hg|by apply Hmax].
  - by apply spreadWithin_replicate.
Qed.

Lemma C5_column_balance_witness :
  balanced (calculateWaterfallLayout false 664 exampleImages 2)
           (finalColumnHeights false 664 exampleImages 2).
Proof.
  apply (C5_column_balance false 664 exampleImages 2).
  - discriminate.
  - lia.
  - repeat constructor.
  - vm_compute. repeat constructor; discriminate.
Defined.

Section ContentHeight.

Variable imageWidth : Z.

Lemma placeImage_tracks (columnHeights reached : list Z) (im : ImageWithDimensions) :
  columnHeights <> [] ->
  0 <= heightFor imageWidth im ->
  tracks columnHeights reached ->
  tracks (snd (placeImage imageWidth columnHeights im))
         (raiseColumn reached (fst (placeImage imageWidth columnHeights im))).
Proof.
  intros Hne Hh Htr.
  destruct (placeImage_firstMin imageWidth columnHeights im Hne)
    as (c & m & (Hc & _) & ->).
  cbn [fst snd]. unfold raiseColumn. cbn [column top calculatedHeight].
  rewrite get_of_nat, Nat2Z.id.
  assert (Hlt : (c < length columnHeights)%nat) by (by eapply lookup_lt_Some).
  unfold tracks, gap in *.
  destruct (Htr _ _ Hc) as [[-> Hr]|[Hm Hr]]; rewrite Hr.
  - destruct (Z.ltb_spec 0 (0 + heightFor imageWidth im)).
    + intros j x Hj. destruct (decide (j = c)) as [->|Hjc].
      * rewrite list_lookup_insert_eq in Hj by done. simplify_eq. right.
        split; [lia|]. rewrite list_lookup_insert_eq by (by eapply lookup_lt_Some).
        f_equal. lia.
      * rewrite list_lookup_insert_ne in Hj by done.
        rewrite list_lookup_insert_ne by done. by apply Htr.
    + intros j x Hj. destruct (decide (j = c)) as [->|Hjc].
      * rewrite list_lookup_insert_eq in Hj by done. simplify_eq. right.
        split; [lia|]. rewrite Hr. f_equal. lia.
      * rewrite list_lookup_insert_ne in Hj by done. by apply Htr.
  - destruct (Z.ltb_spec (m - 16) (m + heightFor imageWidth im)); [|lia].
    intros j x Hj. destruct (decide (j = c)) as [->|Hjc].
    + rewrite list_lookup_insert_eq in Hj by done. simplify_eq. right.
      split; [lia|]. rewrite list_lookup_insert_eq by (by eapply lookup_lt_Some).
      f_equal. lia.
    + rewrite list_lookup_insert_ne in Hj by done.
      rewrite list_lookup_insert_ne by done. by apply Htr.
Qed.

Lemma mapImages_tracks (images : list ImageWithDimensions) :
  forall columnHeights reached,
    columnHeights <> [] ->
    Forall (fun im => 0 <= heightFor imageWidth im) images ->
    tracks columnHeights reached ->
    tracks (snd (mapImages imageWidth columnHeights images))
           (foldl raiseColumn reached (fst (mapImages imageWidth columnHeights images))).
Proof.
  induction images as [|im rest IH]; intros hs ch Hne Hall Htr; [done|].
  inversion Hall as [|? ? Him Hrest]; subst.
  rewrite mapImages_cons. cbn [fst snd foldl]. apply IH.
  - by apply placeImage_nonempty.
  - done.
  - by apply placeImage_tracks.
Qed.

Lemma raiseColumn_length (reached : list Z) (p : PositionedImage) :
  length (raiseColumn reached p) = length reached.
Proof.
  unfold raiseColumn. destruct (JS.get reached (column p)); [|done].
  destruct (_ <? _); [apply length_insert|done].
Qed.

Lemma foldl_raiseColumn_length (positioned : list PositionedImage) :
  forall reached, length (foldl raiseColumn reached positioned) = length reached.
Proof.
  induction positioned as [|p l IH]; intros ch; [done|].
  simpl. rewrite IH. apply raiseColumn_length.
Qed.

(** After a first placement some accumulator has reached the gap. *)
Lemma mapImages_reaches_gap (images : list ImageWithDimensions) :
  forall columnHeights reached,
    images <> [] ->
    columnHeights <> [] ->
    Forall (fun im => 0 <= heightFor imageWidth im) images ->
    tracks columnHeights reached ->
    exists j x, snd (mapImages imageWidth columnHeights images) !! j = Some x
                /\ gap <= x.
Proof.
  intros hs ch Hne Hhs Hall Htr. destruct images as [|im rest]; [done|].
  inversion Hall as [|? ? Him Hrest]; subst.
  rewrite mapImages_cons. cbn [snd].
  pose proof (placeImage_nonempty imageWidth hs im Hhs) as Hne1.
  destruct (placeImage_firstMin imageWidth hs im Hhs) as (c & m & (Hc & _) & Heq).
  rewrite Heq in *. cbn [snd] in *.
  assert (Hm : 0 <= m).
  { unfold tracks, gap in Htr. destruct (Htr _ _ Hc) as [[-> _]|[? _]]; lia. }
  assert (Hnew : <[c := m + (heightFor imageWidth im + gap)]> hs !! c
                 = Some (m + (heightFor imageWidth im + gap))).
  { apply list_lookup_insert_eq. by eapply lookup_lt_Some. }
  destruct (mapImages_grows imageWidth rest _ Hne1) with (j := c)
    (x := m + (heightFor imageWidth im + gap)) as (y & Hy & Hle); [|done|].
  { eapply Forall_impl; [exact Hrest|]. intros a Ha. cbv beta in Ha.
    unfold growing, gap. lia. }
  exists c, y. split; [done|]. unfold gap in *. lia.
Qed.

End ContentHeight.

Lemma tracks_replicate (k : nat) : tracks (replicate k 0) (replicate k 0).
Proof. intros j x Hj. left. apply lookup_replicate in Hj as [-> ?]. split; [done|].
  by apply lookup_replicate. Qed.

(** The maxima of two arrays related by [tracks], once a column is used. *)
Lemma tracks_max (columnHeights reached : list Z) (hi : Z) :
  length reached = length columnHeights ->
  tracks columnHeights reached ->
  (exists j x, columnHeights !! j = Some x /\ gap <= x) ->
  JS.Math_max columnHeights = Some hi ->
  JS.Math_max reached = Some (hi - gap).
Proof.
  intros Hlen Htr (j0 & x0 & Hj0 & Hx0) Hhi.
  apply Math_max_elem in Hhi as [Hin Hub].
  assert (Hge : gap <= hi).
  { specialize (Hub x0 (list_elem_of_lookup_2 _ _ _ Hj0)). lia. }
  assert (Hne : reached <> []).
  { intros E. rewrite E in Hlen. apply lookup_lt_Some in Hj0. simpl in Hlen. lia. }
  destruct (Math_max_Some reached Hne) as (m & Hm & Hmin & Hmub). rewrite Hm. f_equal.
  apply Z.le_antisymm.
  - apply list_elem_of_lookup in Hmin as [j Hj].
    destruct (lookup_lt_is_Some_2 columnHeights j) as [x Hx].
    { rewrite <- Hlen. by eapply lookup_lt_Some. }
    specialize (Hub x (list_elem_of_lookup_2 _ _ _ Hx)).
    unfold tracks, gap in *.
    destruct (Htr _ _ Hx) as [[-> Hr]|[? Hr]]; rewrite Hr in Hj; simplify_eq; lia.
  - apply list_elem_of_lookup in Hin as [j Hj]. unfold tracks, gap in *.
    destruct (Htr _ _ Hj) as [[-> Hr]|[? Hr]]; [lia|].
    apply Hmub. by eapply list_elem_of_lookup_2.
Qed.

(** C1 as stated fails: on the worked example the final accumulators are
    494 and 324, and the content height the page computes is 478, the
    bottom of the lowest image, not 494. *)
Lemma C1_counterexample :
  JS.Math_max (finalColumnHeights false 664 exampleImages 2) = Some 494
  /\ containerHeight (calculateWaterfallLayout false 664 exampleImages 2) 2 = 478
  /\ containerHeight (calculateWaterfallLayout false 664 exampleImages 2) 2 <> 494.
Proof. vm_compute. repeat split; discriminate. Qed.

(** C1, amended.  For a non-empty input whose placed heights are not
    negative, the content height is the maximum of the final column
    accumulators minus the gap: the gap added after the last image of the
    highest column is not part of it.  On the worked example (2 columns,
    container width 632, ratios 2, 1, 1) the accumulators end at 494 and 324
    and the content height is 478. *)
Theorem C1_content_height :
  (forall (isFullscreen : bool) (innerWidth : Z)
          (images : list ImageWithDimensions) (columnCount : nat),
      images <> [] ->
      (1 <= columnCount)%nat ->
      Forall dimensioned images ->
      Forall (fun p => 0 <= calculatedHeight p)
             (calculateWaterfallLayout isFullscreen innerWidth images columnCount) ->
      exists hi,
        JS.Math_max (finalColumnHeights isFullscreen innerWidth images columnCount)
        = Some hi
        /\ containerHeight
             (calculateWaterfallLayout isFullscreen innerWidth images columnCount)
             columnCount = hi - gap)
  /\ (containerMaxWidth false 664 = 632
      /\ finalColumnHeights false 664 exampleImages 2 = [494; 324]
      /\ containerHeight (calculateWaterfallLayout false 664 exampleImages 2) 2 = 478).
Proof.
  split; [|by vm_compute].
  intros isFullscreen innerWidth images columnCount Hne Hk _ Hh.
  unfold finalColumnHeights. rewrite layout_run in *. unfold runLayout in *.
  set (w := imageWidthOf (containerMaxWidth isFullscreen innerWidth) columnCount) in *.
  set (zeros := replicate columnCount 0) in *.
  pose proof (replicate_nonempty _ Hk) as Hz. fold zeros in Hz.
  pose proof (heights_of_positioned (fun h => 0 <= h) w images zeros Hh) as Hall.
  assert (Hfin : snd (mapImages w zeros images) <> []).
  { intros E. apply (f_equal length) in E. rewrite mapImages_heights_length in E.
    unfold zeros in E. rewrite length_replicate in E. simpl in E. lia. }
  destruct (Math_max_Some _ Hfin) as (hi & Hhi & _). exists hi. split; [done|].
  assert (Hps : fst (mapImages w zeros images) <> []).
  { intros E. apply (f_equal length) in E. rewrite mapImages_length in E.
    destruct images; [done|]. simpl in E. lia. }
  unfold containerHeight. fold zeros.
  destruct (fst (mapImages w zeros images)) as [|p0 ps] eqn:Eps; [done|].
  rewrite <- Eps.
  rewrite (tracks_max (snd (mapImages w zeros images)) _ hi); [done| | | |done].
  - rewrite foldl_raiseColumn_length, mapImages_heights_length. done.
  - apply mapImages_tracks; [done|done|apply tracks_replicate].
  - eapply mapImages_reaches_gap; eauto. apply tracks_replicate.
Qed.

Lemma C1_content_height_witness :
  exists hi,
    JS.Math_max (finalColumnHeights false 664 exampleImages 2) = Some hi
    /\ containerHeight (calculateWaterfallLayout false 664 exampleImages 2) 2 = hi - gap.
Proof.
  apply (proj1 C1_content_height false 664 exampleImages 2%nat).
  - discriminate.
  - lia.
  - repeat constructor.
  - vm_compute. repeat constructor; discriminate.
Defined.

(** ** Images of equal aspect ratio are laid out alike *)

Lemma heightFor_ratio (imageWidth : Z) (a b : ImageWithDimensions) :
  (aspectRatio a == aspectRatio b)%Q -> heightFor imageWidth a = heightFor imageWidth b.
Proof.
  intros H. unfold heightFor, Binary64.div. f_equal. apply round_comp. by rewrite H.
Qed.

Lemma mapImages_ratio (imageWidth : Z) (l1 l2 : list ImageWithDimensions) :
  Forall2 (fun a b => (aspectRatio a == aspectRatio b)%Q) l1 l2 ->
  forall columnHeights,
    map geometry (fst (mapImages imageWidth columnHeights l1))
    = map geometry (fst (mapImages imageWidth columnHeights l2))
    /\ snd (mapImages imageWidth columnHeights l1)
       = snd (mapImages imageWidth columnHeights l2).
Proof.
  induction 1 as [|a b l1 l2 Hab _ IH]; intros hs; [done|].
  rewrite !mapImages_cons. cbn [fst snd map].
  assert (E : snd (placeImage imageWidth hs a) = snd (placeImage imageWidth hs b)).
  { unfold placeImage. cbn [snd]. by rewrite (heightFor_ratio _ a b Hab). }
  rewrite E. destruct (IH (snd (placeImage imageWidth hs b))) as [-> ->].
  split; [|done]. f_equal. unfold placeImage, geometry.
  cbn [fst column top calculatedHeight calculatedWidth].
  by rewrite (heightFor_ratio _ a b Hab).
Qed.

Lemma foldl_raiseColumn_geometry (ps qs : list PositionedImage) :
  map geometry ps = map geometry qs ->
  forall reached, foldl raiseColumn reached ps = foldl raiseColumn reached qs.
Proof.
  revert qs. induction ps as [|p ps IH]; intros [|q qs] H ch; try done.
  cbn [map] in H. unfold geometry at 1 3 in H.
  injection H as Hc Ht Hh _ Hrest. cbn [foldl].
  assert (E : raiseColumn ch p = raiseColumn ch q).
  { unfold raiseColumn. by rewrite Hc, Ht, Hh. }
  rewrite E. by apply IH.
Qed.

Lemma containerHeight_geometry (ps qs : list PositionedImage) (k : nat) :
  map geometry ps = map geometry qs -> containerHeight ps k = containerHeight qs k.
Proof.
  intros H. unfold containerHeight.
  rewrite (foldl_raiseColumn_geometry ps qs H).
  destruct ps, qs; done.
Qed.

Lemma containerWidth_geometry (ps qs : list PositionedImage) (k : nat) :
  map geometry ps = map geometry qs -> containerWidth ps k = containerWidth qs k.
Proof.
  intros H. destruct ps as [|p ps], qs as [|q qs]; try done.
  cbn [map] in H. unfold geometry at 1 3 in H.
  injection H as _ _ _ Hw _. unfold containerWidth. by rewrite Hw.
Qed.

(** C9. A failed decode is no error: the loader answers with width 300,
    height 200 and aspect ratio 1.5.  In any image sequence the fallback
    image is laid out as a decoded image of ratio 1.5 in its place would be:
    the same columns, tops and sizes for every image, and the same content
    height and width. *)
Theorem C9_decode_failure_fallback (failed decoded : ImageFile)
    (naturalWidth naturalHeight : Z)
    (isFullscreen : bool) (innerWidth : Z) (columnCount : nat)
    (before after : list ImageWithDimensions) :
  (inject_Z naturalWidth / inject_Z naturalHeight == 3 # 2)%Q ->
  let fallback := loadImageDimensions failed onerror in
  let loaded := loadImageDimensions decoded (onload naturalWidth naturalHeight) in
  let withFallback :=
    calculateWaterfallLayout isFullscreen innerWidth (before ++ fallback :: after)
      columnCount in
  let withLoaded :=
    calculateWaterfallLayout isFullscreen innerWidth (before ++ loaded :: after)
      columnCount in
  (width fallback = 300 /\ height fallback = 200 /\ aspectRatio fallback = (3 # 2)%Q)
  /\ map geometry withFallback = map geometry withLoaded
  /\ containerHeight withFallback columnCount = containerHeight withLoaded columnCount
  /\ containerWidth withFallback columnCount = containerWidth withLoaded columnCount.
Proof.
  intros Hratio fallback loaded withFallback withLoaded. split; [done|].
  assert (E : map geometry withFallback = map geometry withLoaded).
  { unfold withFallback, withLoaded. rewrite !layout_run. unfold runLayout.
    apply mapImages_ratio. apply Forall2_app.
    - apply Forall_Forall2_diag, Forall_forall. intros x _. reflexivity.
    - constructor.
      + change (3 # 2 == Binary64.round (inject_Z naturalWidth / inject_Z naturalHeight))%Q.
        by rewrite (round_comp _ _ Hratio), round_three_halves.
      + apply Forall_Forall2_diag, Forall_forall. intros x _. reflexivity. }
  split; [done|]. split.
  - by apply containerHeight_geometry.
  - by apply containerWidth_geometry.
Qed.

Lemma C9_decode_failure_fallback_witness :
  let fallback := loadImageDimensions file0 onerror in
  let loaded := loadImageDimensions file0 (onload 600 400) in
  let withFallback :=
    calculateWaterfallLayout false 664 ([img 200 100] ++ fallback :: [img 100 100]) 2 in
  let withLoaded :=
    calculateWaterfallLayout false 664 ([img 200 100] ++ loaded :: [img 100 100]) 2 in
  (width fallback = 300 /\ height fallback = 200 /\ aspectRatio fallback = (3 # 2)%Q)
  /\ map geometry withFallback = map geometry withLoaded
  /\ containerHeight withFallback 2 = containerHeight withLoaded 2
  /\ containerWidth withFallback 2 = containerWidth withLoaded 2.
Proof.
  apply (C9_decode_failure_fallback file0 file0 600 400 false 664 2
           [img 200 100] [img 100 100]).
  reflexivity.
Defined.

(** ** The shuffle *)

Section Shuffle.

Context {A : Type}.
Variable random : nat -> Q.
Hypothesis random_range : forall n, (0 <= random n)%Q /\ (random n < 1)%Q.

(** [Math.floor (Math.random () * (i + 1))] is an index of [0 .. i]. *)
Lemma drawn_index_le (calls i : nat) :
  (Z.to_nat (Qfloor (random calls * inject_Z (Z.of_nat i + 1))%Q) <= i)%nat.
Proof.
  destruct (random_range calls) as [H0 H1].
  set (n := inject_Z (Z.of_nat i + 1)).
  assert (Hn : (0 < n)%Q).
  { unfold n. change 0%Q with (inject_Z 0). rewrite <- Zlt_Qlt. lia. }
  assert (Hlt : (random calls * n < n)%Q).
  { rewrite <- (Qmult_1_l n) at 2. by apply Qmult_lt_compat_r. }
  assert (Hfl : Qfloor (random calls * n) < Z.of_nat i + 1).
  { rewrite Zlt_Qlt. eapply Qle_lt_trans; [apply Qfloor_le|]. exact Hlt. }
  lia.
Qed.

Lemma swap_Permutation (l : list A) (i j : nat) :
  (i < length l)%nat -> (j < length l)%nat ->
  JS.swap l i j ≡ₚ l /\ length (JS.swap l i j) = length l.
Proof.
  intros Hi Hj. unfold JS.swap.
  destruct (lookup_lt_is_Some_2 l i Hi) as [ai Hai].
  destruct (lookup_lt_is_Some_2 l j Hj) as [aj Haj].
  rewrite Hai, Haj. split.
  - by apply Permutation_insert_swap.
  - by rewrite !length_insert.
Qed.

Lemma shuffleLoop_Permutation (i : nat) :
  forall (calls : nat) (l : list A),
    (i < length l)%nat \/ (i = 0)%nat ->
    shuffleLoop random calls i l ≡ₚ l.
Proof.
  induction i as [|i IH]; intros calls l Hi; [done|].
  destruct Hi as [Hi|Hi]; [|lia].
  cbn [shuffleLoop].
  pose proof (drawn_index_le calls (S i)) as Hj.
  set (j := Z.to_nat (Qfloor (random calls * inject_Z (Z.of_nat (S i) + 1))%Q)) in *.
  destruct (swap_Permutation l (S i) j Hi) as [Hperm Hlen]; [lia|].
  rewrite IH; [exact Hperm|]. left. rewrite Hlen. lia.
Qed.

End Shuffle.

(** C10. With [Math.random] answering in [0, 1), the shuffled list is a
    permutation of the list before: the same length and the same entries,
    each as often as before, hence the same multiset of ids. *)
Theorem C10_shuffle_permutation (random : nat -> Q) (prev : list ImageFile) :
  (forall n, (0 <= random n)%Q /\ (random n < 1)%Q) ->
  shuffleImages random prev ≡ₚ prev
  /\ length (shuffleImages random prev) = length prev
  /\ map id (shuffleImages random prev) ≡ₚ map id prev.
Proof.
  intros Hr.
  assert (H : shuffleImages random prev ≡ₚ prev).
  { unfold shuffleImages. apply shuffleLoop_Permutation; [done|].
    destruct prev; [by right|left; simpl; lia]. }
  split; [done|]. split.
  - by apply Permutation_length.
  - by apply Permutation_map.
Qed.

Example example_shuffle :
  shuffleImages (fun _ => (1 # 2)%Q) [1; 2; 3; 4] = [1; 4; 2; 3].
Proof. vm_compute. reflexivity. Qed.

Lemma C10_shuffle_permutation_witness :
  shuffleImages (fun _ => (1 # 2)%Q) [file0; file1; file2] ≡ₚ [file0; file1; file2]
  /\ length (shuffleImages (fun _ => (1 # 2)%Q) [file0; file1; file2])
     = length [file0; file1; file2]
  /\ map id (shuffleImages (fun _ => (1 # 2)%Q) [file0; file1; file2])
     ≡ₚ map id [file0; file1; file2].
Proof.
  apply (C10_shuffle_permutation (fun _ => (1 # 2)%Q) [file0; file1; file2]).
  intros n. split; reflexivity || discriminate.
Defined.

(** ** Resizing *)

Lemma heightFor_mono (w w' : Z) (im : ImageWithDimensions) :
  w <= w' -> dimensioned im -> heightFor w im <= heightFor w' im.
Proof.
  intros Hw Him. unfold heightFor, Binary64.div. apply Math_round_mono, round_mono.
  unfold Qdiv. apply Qmult_le_compat_r.
  - by rewrite <- Zle_Qle.
  - apply Qlt_le_weak, Qinv_lt_0_compat, Him.
Qed.

Lemma mapImages_mono (w w' : Z) (images : list ImageWithDimensions) :
  w <= w' ->
  Forall dimensioned images ->
  forall columnHeights columnHeights',
    Forall2 (fun p p' => calculatedWidth p <= calculatedWidth p'
                         /\ calculatedHeight p <= calculatedHeight p')
            (fst (mapImages w columnHeights images))
            (fst (mapImages w' columnHeights' images)).
Proof.
  intros Hw Hall. induction Hall as [|im rest Him _ IH]; intros hs hs'.
  - constructor.
  - rewrite !mapImages_cons. cbn [fst]. constructor; [|apply IH].
    unfold placeImage. cbn [fst calculatedWidth calculatedHeight].
    split; [done|by apply heightFor_mono].
Qed.

Lemma map_column_single (positioned : list PositionedImage) :
  Forall (fun p => 0 <= column p < Z.of_nat 1) positioned ->
  map column positioned = replicate (length positioned) 0.
Proof.
  induction 1 as [|p ps Hp _ IH]; [done|]. simpl. rewrite IH. f_equal. lia.
Qed.

(** C7 as stated fails.  Between a viewport of 664 and one of 1296 the
    container width doubles, from 632 to 1264, but with two columns the
    column width goes from 308 to 624, the heights from 100, 100, 308 to
    203, 202, 624, which no single factor explains, and the third image
    moves from column 0 to column 1. *)
Lemma C7_counterexample :
  containerMaxWidth false 1296 = 2 * containerMaxWidth false 664
  /\ map column (calculateWaterfallLayout false 1296 resizeImages 2)
     <> map column (calculateWaterfallLayout false 664 resizeImages 2)
  /\ forall factor : Q,
       ~ scalesBy factor (calculateWaterfallLayout false 664 resizeImages 2)
                         (calculateWaterfallLayout false 1296 resizeImages 2).
Proof.
  split; [reflexivity|]. split; [vm_compute; discriminate|].
  intros factor H.
  assert (E : map calculatedHeight (calculateWaterfallLayout false 664 resizeImages 2)
              = [100; 100; 308]
              /\ map calculatedHeight (calculateWaterfallLayout false 1296 resizeImages 2)
                 = [203; 202; 624]) by (vm_compute; done).
  destruct E as [E E']. unfold scalesBy in H.
  destruct H as [|p p' ps ps' [_ Hp] H]; [discriminate E|].
  destruct H as [|q q' qs qs' [_ Hq] _]; [discriminate E|].
  cbn [map] in E, E'. injection E as Ep Eq _. injection E' as Ep' Eq' _.
  rewrite Ep, Ep' in Hp. rewrite Eq, Eq' in Hq.
  rewrite <- Hq in Hp. revert Hp. unfold Qeq. simpl. lia.
Qed.

(** C7, amended.  Re-running the layout in a container at least as wide,
    with the same images and at least one column, keeps the images and
    their order and recomputes the sizes from the new width.  Every new
    width is the floor of (new container width - 16 * (columnCount - 1)) /
    columnCount, the integer [w] with
    columnCount * w <= available width < columnCount * (w + 1).  Every new
    height is [Math.round] of the quotient width / aspectRatio as the
    machine computes it: the integer [h] with h - 1/2 <= q < h + 1/2, where
    [q] is a double nearest to the exact quotient (for a quotient in the
    range of the doubles).  No width or height gets smaller.  The content
    width of a non-empty gallery is columnCount new widths plus
    16 * (columnCount - 1), a width of 0 counting as 300.  With a single
    column the column assignment is unchanged. *)
Theorem C7_resize (isFullscreen isFullscreen' : bool) (innerWidth innerWidth' : Z)
    (images : list ImageWithDimensions) (columnCount : nat) :
  (1 <= columnCount)%nat ->
  Forall dimensioned images ->
  containerMaxWidth isFullscreen innerWidth <= containerMaxWidth isFullscreen' innerWidth' ->
  let positioned := calculateWaterfallLayout isFullscreen innerWidth images columnCount in
  let positioned' := calculateWaterfallLayout isFullscreen' innerWidth' images columnCount in
  let k := Z.of_nat columnCount in
  let available' := containerMaxWidth isFullscreen' innerWidth' - 16 * (k - 1) in
  (map image positioned = images /\ map image positioned' = images)
  /\ Forall (fun p' =>
               k * calculatedWidth p' <= available' < k * calculatedWidth p' + k
               /\ (inDoubleRange (inject_Z (calculatedWidth p') / aspectRatio (image p')) ->
                   exists q : Q,
                     nearestDouble
                       (inject_Z (calculatedWidth p') / aspectRatio (image p')) q
                     /\ (inject_Z (calculatedHeight p') - (1 # 2) <= q)%Q
                     /\ (q < inject_Z (calculatedHeight p') + (1 # 2))%Q))
            positioned'
  /\ Forall2 (fun p p' => calculatedWidth p <= calculatedWidth p'
                          /\ calculatedHeight p <= calculatedHeight p')
             positioned positioned'
  /\ (images <> [] ->
      exists w' : Z,
        k * w' <= available' < k * w' + k
        /\ containerWidth positioned' columnCount
           = (if w' =? 0 then 300 else w') * k + 16 * (k - 1))
  /\ (columnCount = 1%nat -> map column positioned' = map column positioned).
Proof.
  intros Hk Hall Hcw positioned positioned' k available'.
  subst positioned positioned' k available'. rewrite !layout_run. unfold runLayout.
  pose proof (imageWidthOf_floor (containerMaxWidth isFullscreen' innerWidth')
                columnCount Hk) as Hfloor. cbv zeta in Hfloor.
  set (w' := imageWidthOf (containerMaxWidth isFullscreen' innerWidth') columnCount) in *.
  set (w := imageWidthOf (containerMaxWidth isFullscreen innerWidth) columnCount).
  set (zeros := replicate columnCount 0).
  assert (Hw : w <= w').
  { unfold w, w', imageWidthOf, availableWidth.
    apply Z.div_le_mono; lia. }
  split; [by rewrite !mapImages_image|].
  split.
  { eapply Forall_impl; [apply mapImages_width|].
    intros p' [Hpw Hph]. cbv beta. rewrite Hpw, Hph.
    split; [exact Hfloor|apply heightFor_nearest]. }
  split; [by apply mapImages_mono|].
  split.
  - intros Hne. exists w'. split; [exact Hfloor|].
    destruct images as [|im rest]; [done|].
    rewrite mapImages_cons. cbn [fst]. unfold containerWidth, placeImage.
    cbn [fst calculatedWidth]. done.
  - intros ->.
    pose proof (mapImages_column w images zeros (replicate_nonempty 1 Hk)) as H.
    pose proof (mapImages_column w' images zeros (replicate_nonempty 1 Hk)) as H'.
    rewrite (map_column_single _ H), (map_column_single _ H').
    by rewrite !mapImages_length.
Qed.

Lemma C7_resize_witness :
  let positioned := calculateWaterfallLayout false 664 resizeImages 2 in
  let positioned' := calculateWaterfallLayout false 1296 resizeImages 2 in
  let k := Z.of_nat 2 in
  let available' := containerMaxWidth false 1296 - 16 * (k - 1) in
  (map image positioned = resizeImages /\ map image positioned' = resizeImages)
  /\ Forall (fun p' =>
               k * calculatedWidth p' <= available' < k * calculatedWidth p' + k
               /\ (inDoubleRange (inject_Z (calculatedWidth p') / aspectRatio (image p')) ->
                   exists q : Q,
                     nearestDouble
                       (inject_Z (calculatedWidth p') / aspectRatio (image p')) q
                     /\ (inject_Z (calculatedHeight p') - (1 # 2) <= q)%Q
                     /\ (q < inject_Z (calculatedHeight p') + (1 # 2))%Q))
            positioned'
  /\ Forall2 (fun p p' => calculatedWidth p <= calculatedWidth p'
                          /\ calculatedHeight p <= calculatedHeight p')
             positioned positioned'
  /\ (resizeImages <> [] ->
      exists w' : Z,
        k * w' <= available' < k * w' + k
        /\ containerWidth positioned' 2
           = (if w' =? 0 then 300 else w') * k + 16 * (k - 1))
  /\ (2%nat = 1%nat -> map column positioned' = map column positioned).
Proof.
  apply (C7_resize false false 664 1296 resizeImages 2).
  - lia.
  - repeat constructor.
  - vm_compute. discriminate.
Defined.


(** ** The cards inside the container *)

Lemma raiseColumn_grows (reached : list Z) (p : PositionedImage) (c : nat) (v : Z) :
  reached !! c = Some v ->
  exists v', raiseColumn reached p !! c = Some v' /\ v <= v'.
Proof.
  intros Hc. unfold raiseColumn.
  destruct (JS.get reached (column p)) as [h|] eqn:Hget; [|by exists v].
  destruct (Z.ltb_spec h (top p + calculatedHeight p)); [|by exists v].
  destruct (decide (Z.to_nat (column p) = c)) as [<-|Hne].
  - exists (top p + calculatedHeight p). split.
    + apply list_lookup_insert_eq. by eapply lookup_lt_Some.
    + unfold JS.get in Hget. destruct (column p <? 0); [done|]. simplify_eq. lia.
  - exists v. split; [|lia]. by rewrite list_lookup_insert_ne.
Qed.

Lemma foldl_raiseColumn_grows (positioned : list PositionedImage) :
  forall (reached : list Z) (c : nat) (v : Z),
    reached !! c = Some v ->
    exists v', foldl raiseColumn reached positioned !! c = Some v' /\ v <= v'.
Proof.
  induction positioned as [|p ps IH]; intros ch c v Hc; [by exists v|].
  cbn [foldl]. destruct (raiseColumn_grows ch p c v Hc) as (v1 & H1 & Hle1).
  destruct (IH _ c v1 H1) as (v2 & H2 & Hle2). exists v2. split; [done|lia].
Qed.

Lemma raiseColumn_reaches (reached : list Z) (p : PositionedImage) (c : nat) :
  column p = Z.of_nat c ->
  (c < length reached)%nat ->
  exists v, raiseColumn reached p !! c = Some v /\ top p + calculatedHeight p <= v.
Proof.
  intros Hc Hlt. unfold raiseColumn. rewrite Hc, get_of_nat, Nat2Z.id.
  destruct (lookup_lt_is_Some_2 reached c Hlt) as [h Hh]. rewrite Hh.
  destruct (Z.ltb_spec h (top p + calculatedHeight p)).
  - exists (top p + calculatedHeight p). split; [|lia]. by apply list_lookup_insert_eq.
  - exists h. split; [done|lia].
Qed.

Lemma foldl_raiseColumn_reaches (positioned : list PositionedImage) :
  forall (reached : list Z) (p : PositionedImage) (c : nat),
    p ∈ positioned ->
    column p = Z.of_nat c ->
    (c < length reached)%nat ->
    exists v, foldl raiseColumn reached positioned !! c = Some v
              /\ top p + calculatedHeight p <= v.
Proof.
  induction positioned as [|a ps IH]; intros ch p c Hin Hc Hlt; [inversion Hin|].
  cbn [foldl]. apply elem_of_cons in Hin as [->|Hin].
  - destruct (raiseColumn_reaches ch a c Hc Hlt) as (v & Hv & Hle).
    destruct (foldl_raiseColumn_grows ps _ c v Hv) as (v' & Hv' & Hle').
    exists v'. split; [done|lia].
  - apply IH; [done|done|]. by rewrite raiseColumn_length.
Qed.

(** X1. The container is tall enough for every card: with at least one
    column, the bottom edge top + height of every positioned image is at
    most the content height, which is never negative. *)
Theorem X1_cards_above_container_bottom (isFullscreen : bool) (innerWidth : Z)
    (images : list ImageWithDimensions) (columnCount : nat) (p : PositionedImage) :
  (1 <= columnCount)%nat ->
  Forall dimensioned images ->
  p ∈ calculateWaterfallLayout isFullscreen innerWidth images columnCount ->
  top p + calculatedHeight p
  <= containerHeight (calculateWaterfallLayout isFullscreen innerWidth images columnCount)
       columnCount
  /\ 0 <= containerHeight
            (calculateWaterfallLayout isFullscreen innerWidth images columnCount)
            columnCount.
Proof.
  intros Hk _ Hp. rewrite layout_run in *. unfold runLayout in *.
  set (w := imageWidthOf (containerMaxWidth isFullscreen innerWidth) columnCount) in *.
  set (zeros := replicate columnCount 0) in *.
  set (ps := fst (mapImages w zeros images)) in *.
  pose proof (mapImages_column w images zeros (replicate_nonempty _ Hk)) as Hcol.
  fold ps in Hcol. unfold zeros in Hcol. rewrite length_replicate in Hcol.
  rewrite Forall_forall in Hcol. specialize (Hcol p Hp).
  assert (Hlen : length zeros = columnCount) by apply length_replicate.
  destruct (foldl_raiseColumn_reaches ps zeros p (Z.to_nat (column p)) Hp)
    as (v & Hv & Hle); [lia|lia|].
  assert (H0 : zeros !! 0%nat = Some 0) by (apply lookup_replicate; split; [done|lia]).
  destruct (foldl_raiseColumn_grows ps zeros 0%nat 0 H0) as (v0 & Hv0 & Hle0).
  assert (Hch : containerHeight ps columnCount
                = default 0 (JS.Math_max (foldl raiseColumn zeros ps))).
  { unfold containerHeight. destruct ps; [inversion Hp|done]. }
  rewrite Hch.
  assert (Hne : foldl raiseColumn zeros ps <> []).
  { intros E. rewrite E in Hv. done. }
  destruct (Math_max_Some _ Hne) as (m & -> & _ & Hub).
  change (default 0 (Some m)) with m.
  split.
  - specialize (Hub v (list_elem_of_lookup_2 _ _ _ Hv)). lia.
  - specialize (Hub v0 (list_elem_of_lookup_2 _ _ _ Hv0)). lia.
Qed.

Lemma X1_cards_above_container_bottom_witness :
  let p := {| image := img 100 100; column := 0; top := 170;
              calculatedHeight := 308; calculatedWidth := 308 |} in
  top p + calculatedHeight p
  <= containerHeight (calculateWaterfallLayout false 664 exampleImages 2) 2
  /\ 0 <= containerHeight (calculateWaterfallLayout false 664 exampleImages 2) 2.
Proof.
  intros p.
  apply (X1_cards_above_container_bottom false 664 exampleImages 2 p).
  - lia.
  - repeat constructor.
  - apply list_elem_of_lookup_2 with 2%nat. reflexivity.
Defined.

Lemma layout_growing (isFullscreen : bool) (innerWidth : Z)
    (images : list ImageWithDimensions) (columnCount : nat) :
  0 <= imageWidthOf (containerMaxWidth isFullscreen innerWidth) columnCount ->
  Forall dimensioned images ->
  Forall (growing (imageWidthOf (containerMaxWidth isFullscreen innerWidth) columnCount))
         images.
Proof.
  intros Hw Hall. eapply Forall_impl; [exact Hall|]. intros im Him.
  pose proof (heightFor_nonneg _ im Hw Him). unfold growing, gap. lia.
Qed.

(** X2. With a non-negative column width every card lies inside the
    container horizontally and starts at a non-negative offset: its left
    and top are at least 0 and its right edge left + width is at most the
    content width. *)
Theorem X2_cards_inside_container_width (isFullscreen : bool) (innerWidth : Z)
    (images : list ImageWithDimensions) (columnCount : nat) (p : PositionedImage) :
  (1 <= columnCount)%nat ->
  Forall dimensioned images ->
  0 <= imageWidthOf (containerMaxWidth isFullscreen innerWidth) columnCount ->
  p ∈ calculateWaterfallLayout isFullscreen innerWidth images columnCount ->
  0 <= cardLeft p
  /\ cardLeft p + calculatedWidth p
     <= containerWidth
          (calculateWaterfallLayout isFullscreen innerWidth images columnCount)
          columnCount
  /\ 0 <= top p.
Proof.
  intros Hk Hall Hw Hp.
  pose proof (layout_growing _ _ _ _ Hw Hall) as Hgrow.
  rewrite layout_run in *. unfold runLayout in *.
  set (w := imageWidthOf (containerMaxWidth isFullscreen innerWidth) columnCount) in *.
  set (zeros := replicate columnCount 0) in *.
  pose proof (replicate_nonempty _ Hk) as Hz. fold zeros in Hz.
  pose proof (mapImages_column w images zeros Hz) as Hcol.
  unfold zeros in Hcol at 1. rewrite length_replicate in Hcol.
  pose proof (mapImages_width w images zeros) as Hwd.
  rewrite Forall_forall in Hcol, Hwd.
  destruct (Hwd p Hp) as [Hpw _]. specialize (Hcol p Hp).
  assert (Htop : 0 <= top p).
  { apply (mapImages_top_ge w images zeros Hz Hgrow p (Z.to_nat (column p))); [done|lia|].
    apply lookup_replicate. split; [done|lia]. }
  assert (Hcw : containerWidth (fst (mapImages w zeros images)) columnCount
                = (if w =? 0 then 300 else w) * Z.of_nat columnCount
                  + gap * (Z.of_nat columnCount - 1)).
  { destruct images as [|im rest]; [inversion Hp|].
    rewrite mapImages_cons. cbn [fst]. unfold containerWidth, placeImage.
    cbn [fst calculatedWidth]. done. }
  rewrite Hcw. unfold cardLeft, gap. rewrite Hpw.
  destruct (Z.eqb_spec w 0) as [->|Hne]; split; try split; try done; nia.
Qed.

Lemma X2_cards_inside_container_width_witness :
  let p := {| image := img 100 100; column := 1; top := 0;
              calculatedHeight := 308; calculatedWidth := 308 |} in
  0 <= cardLeft p
  /\ cardLeft p + calculatedWidth p
     <= containerWidth (calculateWaterfallLayout false 664 exampleImages 2) 2
  /\ 0 <= top p.
Proof.
  intros p.
  apply (X2_cards_inside_container_width false 664 exampleImages 2 p).
  - lia.
  - repeat constructor.
  - vm_compute. discriminate.
  - apply list_elem_of_lookup_2 with 1%nat. reflexivity.
Defined.

(** X3. With a non-negative column width no two cards of the gallery touch:
    any two positioned images are at least the gap apart, side by side when
    their columns differ and one below the other when they share a
    column. *)
Theorem X3_cards_apart (isFullscreen : bool) (innerWidth : Z)
    (images : list ImageWithDimensions) (columnCount : nat)
    (i j : nat) (p q : PositionedImage) :
  (1 <= columnCount)%nat ->
  Forall dimensioned images ->
  0 <= imageWidthOf (containerMaxWidth isFullscreen innerWidth) columnCount ->
  (i < j)%nat ->
  calculateWaterfallLayout isFullscreen innerWidth images columnCount !! i = Some p ->
  calculateWaterfallLayout isFullscreen innerWidth images columnCount !! j = Some q ->
  apart p q.
Proof.
  intros Hk Hall Hw Hij Hp Hq.
  pose proof (layout_growing _ _ _ _ Hw Hall) as Hgrow.
  rewrite layout_run in *. unfold runLayout in *.
  set (w := imageWidthOf (containerMaxWidth isFullscreen innerWidth) columnCount) in *.
  set (zeros := replicate columnCount 0) in *.
  pose proof (replicate_nonempty _ Hk) as Hz. fold zeros in Hz.
  pose proof (mapImages_width w images zeros) as Hwd.
  pose proof (mapImages_column w images zeros Hz) as Hcol.
  rewrite Forall_forall in Hwd, Hcol.
  destruct (Hwd p (list_elem_of_lookup_2 _ _ _ Hp)) as [Hpw _].
  destruct (Hwd q (list_elem_of_lookup_2 _ _ _ Hq)) as [Hqw _].
  pose proof (Hcol p (list_elem_of_lookup_2 _ _ _ Hp)) as Hpc.
  pose proof (Hcol q (list_elem_of_lookup_2 _ _ _ Hq)) as Hqc.
  unfold apart, cardLeft, gap. rewrite Hpw, Hqw.
  destruct (Z.lt_trichotomy (column p) (column q)) as [Hlt|[Heq|Hgt]].
  - left. nia.
  - right. right. left.
    pose proof (mapImages_no_overlap w images zeros Hz Hgrow i j p q Hij Hp Hq Heq) as H.
    unfold gap in H. lia.
  - right. left. nia.
Qed.

Lemma X3_cards_apart_witness :
  apart {| image := img 200 100; column := 0; top := 0;
           calculatedHeight := 154; calculatedWidth := 308 |}
        {| image := img 100 100; column := 0; top := 170;
           calculatedHeight := 308; calculatedWidth := 308 |}.
Proof.
  apply (X3_cards_apart false 664 exampleImages 2 0 2).
  - lia.
  - repeat constructor.
  - vm_compute. discriminate.
  - lia.
  - reflexivity.
  - reflexivity.
Defined.

(** X4. Laying out more images after the ones already there moves none of
    them: the layout of a sequence is the beginning of the layout of any
    longer sequence that starts with it. *)
Theorem X4_appending_keeps_earlier_cards (isFullscreen : bool) (innerWidth : Z)
    (images more : list ImageWithDimensions) (columnCount : nat) :
  take (length images)
       (calculateWaterfallLayout isFullscreen innerWidth (images ++ more) columnCount)
  = calculateWaterfallLayout isFullscreen innerWidth images columnCount.
Proof.
  rewrite !layout_run. unfold runLayout. rewrite mapImages_app. cbn [fst].
  rewrite take_app_length'; [done|]. by rewrite mapImages_length.
Qed.

(** ** Columns without holes *)

Section Packing.

Variable imageWidth : Z.

(** What an accumulator holds after the map: its starting value when no
    image went to the column, otherwise the bottom of the last image of the
    column plus the gap. *)
Lemma mapImages_heights_last (images : list ImageWithDimensions) :
  forall (columnHeights : list Z) (c : nat) (x : Z),
    columnHeights <> [] ->
    snd (mapImages imageWidth columnHeights images) !! c = Some x ->
    (columnHeights !! c = Some x
     /\ Forall (fun q => column q <> Z.of_nat c)
               (fst (mapImages imageWidth columnHeights images)))
    \/ (exists (j : nat) (q : PositionedImage),
          fst (mapImages imageWidth columnHeights images) !! j = Some q
          /\ column q = Z.of_nat c
          /\ x = top q + calculatedHeight q + gap
          /\ forall (j' : nat) (q' : PositionedImage),
               (j < j')%nat ->
               fst (mapImages imageWidth columnHeights images) !! j' = Some q' ->
               column q' <> Z.of_nat c).
Proof.
  induction images as [|im rest IH]; intros hs c x Hne Hx.
  - left. split; [done|constructor].
  - rewrite mapImages_cons in Hx |- *. cbn [fst snd] in *.
    pose proof (placeImage_nonempty imageWidth hs im Hne) as Hne1.
    destruct (placeImage_firstMin imageWidth hs im Hne) as (c0 & m & (Hc0 & _) & Heq).
    rewrite Heq in *. cbn [fst snd] in *.
    destruct (IH _ c x Hne1 Hx) as [[Hstart Hnone]|(j & q & Hj & Hqc & Hxq & Hlater)].
    + destruct (decide (c = c0)) as [->|Hcc].
      * right. exists 0%nat. eexists. split; [reflexivity|].
        cbn [column top calculatedHeight].
        rewrite list_lookup_insert_eq in Hstart by (by eapply lookup_lt_Some).
        split; [done|]. split; [simplify_eq; lia|].
        intros [|j'] q' Hj' Hq'; [lia|]. cbn in Hq'.
        rewrite Forall_forall in Hnone. apply Hnone. by eapply list_elem_of_lookup_2.
      * left. rewrite list_lookup_insert_ne in Hstart by done. split; [done|].
        constructor; [|done]. cbn [column]. lia.
    + right. exists (S j), q. split; [done|]. split; [done|]. split; [done|].
      intros [|j'] q' Hj' Hq'; [lia|]. cbn in Hq'. apply (Hlater j'); [lia|done].
Qed.

End Packing.

Lemma layout_packed (isFullscreen : bool) (innerWidth : Z)
    (images : list ImageWithDimensions) (columnCount : nat)
    (i : nat) (p : PositionedImage) :
  (1 <= columnCount)%nat ->
  calculateWaterfallLayout isFullscreen innerWidth images columnCount !! i = Some p ->
  (top p = 0
   /\ forall (j : nat) (q : PositionedImage),
        (j < i)%nat ->
        calculateWaterfallLayout isFullscreen innerWidth images columnCount !! j = Some q ->
        column q <> column p)
  \/ (exists (j : nat) (q : PositionedImage),
        (j < i)%nat
        /\ calculateWaterfallLayout isFullscreen innerWidth images columnCount !! j = Some q
        /\ column q = column p
        /\ top p = top q + calculatedHeight q + gap
        /\ forall (j' : nat) (q' : PositionedImage),
             (j < j' < i)%nat ->
             calculateWaterfallLayout isFullscreen innerWidth images columnCount !! j'
             = Some q' ->
             column q' <> column p).
Proof.
  intros Hk Hp. rewrite layout_run in *. unfold runLayout in *.
  set (w := imageWidthOf (containerMaxWidth isFullscreen innerWidth) columnCount) in *.
  set (zeros := replicate columnCount 0) in *.
  pose proof (replicate_nonempty _ Hk) as Hz. fold zeros in Hz.
  assert (Hi : exists im, images !! i = Some im).
  { apply lookup_lt_is_Some_2. apply lookup_lt_Some in Hp.
    by rewrite mapImages_length in Hp. }
  destruct Hi as [im Hi].
  set (pre := fst (mapImages w zeros (take i images))).
  set (hs := snd (mapImages w zeros (take i images))).
  assert (Hlen : length pre = i).
  { unfold pre. rewrite mapImages_length, length_take_le; [done|].
    apply lookup_lt_Some in Hi. lia. }
  assert (Hsplit : fst (mapImages w zeros images)
                   = pre ++ fst (placeImage w hs im)
                         :: fst (mapImages w (snd (placeImage w hs im))
                                   (drop (S i) images))).
  { rewrite <- (take_drop_middle _ _ _ Hi) at 1.
    rewrite mapImages_app. cbn [fst]. fold pre hs. by rewrite mapImages_cons. }
  assert (Hhs : hs <> []).
  { intros E. apply (f_equal length) in E. unfold hs in E.
    rewrite mapImages_heights_length in E. unfold zeros in E.
    rewrite length_replicate in E. simpl in E. lia. }
  destruct (placeImage_firstMin w hs im Hhs) as (c & m & (Hc & _) & Heq).
  rewrite Heq in Hsplit. cbn [fst snd] in Hsplit.
  rewrite Hsplit in Hp |- *.
  rewrite lookup_app_r in Hp by lia. rewrite Hlen, Nat.sub_diag in Hp.
  cbn in Hp. injection Hp as <-. cbn [column top].
  pose proof (mapImages_heights_last w (take i images) zeros c m Hz Hc) as Hlast.
  fold pre in Hlast.
  destruct Hlast as [[Hstart Hnone]|(j & q & Hj & Hqc & Hxq & Hlater)].
  - left. split.
    + unfold zeros in Hstart. by apply lookup_replicate in Hstart as [-> _].
    + intros j q Hji Hq. rewrite lookup_app_l in Hq by lia.
      rewrite Forall_forall in Hnone. apply Hnone. by eapply list_elem_of_lookup_2.
  - assert (Hji : (j < i)%nat) by (apply lookup_lt_Some in Hj; lia).
    right. exists j, q. split; [done|]. split; [by rewrite lookup_app_l by lia|].
    split; [done|]. split; [done|].
    intros j' q' Hj' Hq'. rewrite lookup_app_l in Hq' by lia.
    apply (Hlater j'); [lia|done].
Qed.

(** X5. Columns have no holes.  With at least one column, a positioned
    image either is the first of its column and has top 0, or starts exactly
    the gap below the bottom of the image placed last in its column before
    it. *)
Theorem X5_columns_packed (isFullscreen : bool) (innerWidth : Z)
    (images : list ImageWithDimensions) (columnCount : nat)
    (i : nat) (p : PositionedImage) :
  (1 <= columnCount)%nat ->
  Forall dimensioned images ->
  calculateWaterfallLayout isFullscreen innerWidth images columnCount !! i = Some p ->
  (top p = 0
   /\ forall (j : nat) (q : PositionedImage),
        (j < i)%nat ->
        calculateWaterfallLayout isFullscreen innerWidth images columnCount !! j = Some q ->
        column q <> column p)
  \/ (exists (j : nat) (q : PositionedImage),
        (j < i)%nat
        /\ calculateWaterfallLayout isFullscreen innerWidth images columnCount !! j = Some q
        /\ column q = column p
        /\ top p = top q + calculatedHeight q + gap
        /\ forall (j' : nat) (q' : PositionedImage),
             (j < j' < i)%nat ->
             calculateWaterfallLayout isFullscreen innerWidth images columnCount !! j'
             = Some q' ->
             column q' <> column p).
Proof. intros Hk _ Hp. by apply layout_packed. Qed.

Lemma X5_columns_packed_witness :
  let p := {| image := img 100 100; column := 0; top := 170;
              calculatedHeight := 308; calculatedWidth := 308 |} in
  (top p = 0
   /\ forall (j : nat) (q : PositionedImage),
        (j < 2)%nat ->
        calculateWaterfallLayout false 664 exampleImages 2 !! j = Some q ->
        column q <> column p)
  \/ (exists (j : nat) (q : PositionedImage),
        (j < 2)%nat
        /\ calculateWaterfallLayout false 664 exampleImages 2 !! j = Some q
        /\ column q = column p
        /\ top p = top q + calculatedHeight q + gap
        /\ forall (j' : nat) (q' : PositionedImage),
             (j < j' < 2)%nat ->
             calculateWaterfallLayout false 664 exampleImages 2 !! j' = Some q' ->
             column q' <> column p).
Proof.
  intros p.
  apply (X5_columns_packed false 664 exampleImages 2 2 p).
  - lia.
  - repeat constructor.
  - reflexivity.
Defined.


(** X6. A single column is one stack in input order: every image is in
    column 0, the first one at top 0, and each next one starts the gap below
    the bottom of the one before it. *)
Theorem X6_single_column_stack (isFullscreen : bool) (innerWidth : Z)
    (images : list ImageWithDimensions) (i : nat) (p : PositionedImage) :
  Forall dimensioned images ->
  calculateWaterfallLayout isFullscreen innerWidth images 1 !! i = Some p ->
  column p = 0
  /\ (i = 0%nat -> top p = 0)
  /\ (forall q, calculateWaterfallLayout isFullscreen innerWidth images 1 !! S i = Some q ->
       top q = top p + calculatedHeight p + gap).
Proof.
  intros _ Hp.
  assert (Hcol : forall j q,
             calculateWaterfallLayout isFullscreen innerWidth images 1 !! j = Some q ->
             column q = 0).
  { intros j q Hq. rewrite layout_run in Hq. unfold runLayout in Hq.
    pose proof (mapImages_column
                  (imageWidthOf (containerMaxWidth isFullscreen innerWidth) 1)
                  images (replicate 1 0) (replicate_nonempty 1 ltac:(lia))) as H.
    rewrite Forall_forall in H. specialize (H q (list_elem_of_lookup_2 _ _ _ Hq)).
    simpl in H. lia. }
  split; [by eapply Hcol|]. split.
  - intros ->.
    destruct (layout_packed _ _ _ 1 0 p ltac:(lia) Hp)
      as [[H0 _]|(j & q & Hj & _)]; [done|lia].
  - intros q Hq.
    destruct (layout_packed _ _ _ 1 (S i) q ltac:(lia) Hq)
      as [[_ Hnone]|(j & q0 & Hj & Hq0 & _ & Htop & Hbetween)].
    + exfalso. apply (Hnone i p); [lia|done|].
      rewrite (Hcol _ _ Hp), (Hcol _ _ Hq). done.
    + destruct (decide (j = i)) as [->|Hne].
      * rewrite Hp in Hq0. by injection Hq0 as ->.
      * exfalso. apply (Hbetween i p); [lia|done|].
        rewrite (Hcol _ _ Hp), (Hcol _ _ Hq). done.
Qed.

Lemma X6_single_column_stack_witness :
  let p := {| image := img 200 100; column := 0; top := 0;
              calculatedHeight := 316; calculatedWidth := 632 |} in
  column p = 0
  /\ (0%nat = 0%nat -> top p = 0)
  /\ (forall q, calculateWaterfallLayout false 664 exampleImages 1 !! 1%nat = Some q ->
       top q = top p + calculatedHeight p + gap).
Proof.
  intros p.
  apply (X6_single_column_stack false 664 exampleImages 0 p).
  - repeat constructor.
  - reflexivity.
Defined.


(** ** Images of one shape fill a grid *)

Section Grid.

Variable k : nat.
Variable d : Z.
Hypothesis k_pos : (1 <= k)%nat.
Hypothesis d_pos : 0 < d.

Lemma gridHeights_lookup (n c : nat) :
  (c < k)%nat ->
  gridHeights k d n !! c
  = Some ((Z.of_nat (n / k) + (if (c <? n mod k)%nat then 1 else 0)) * d).
Proof.
  intros Hc. unfold gridHeights. rewrite list_lookup_fmap.
  by rewrite lookup_seq_lt.
Qed.

Lemma gridHeights_length (n : nat) : length (gridHeights k d n) = k.
Proof. unfold gridHeights. by rewrite length_fmap, length_seq. Qed.

Lemma gridHeights_0 : gridHeights k d 0 = replicate k 0.
Proof.
  apply list_eq_same_length with k;
    [apply length_replicate|apply gridHeights_length|].
  intros c x y Hc Hx Hy. rewrite gridHeights_lookup in Hx by done.
  apply lookup_replicate in Hy as [-> _].
  rewrite Nat.Div0.div_0_l, Nat.Div0.mod_0_l in Hx. simpl in Hx. by simplify_eq.
Qed.

Lemma gridHeights_firstMin (n : nat) :
  firstMin (gridHeights k d n) (n mod k) (Z.of_nat (n / k) * d).
Proof.
  assert (Hr : (n mod k < k)%nat) by (apply Nat.mod_upper_bound; lia).
  split; [|split].
  - rewrite gridHeights_lookup by done.
    destruct (Nat.ltb_spec (n mod k)%nat (n mod k)%nat); [lia|]. f_equal. lia.
  - intros j x Hj. assert (Hjk : (j < k)%nat).
    { apply lookup_lt_Some in Hj. by rewrite gridHeights_length in Hj. }
    rewrite gridHeights_lookup in Hj by done. simplify_eq.
    destruct (j <? n mod k)%nat; nia.
  - intros j x Hlt Hj. rewrite gridHeights_lookup in Hj by lia. simplify_eq.
    destruct (Nat.ltb_spec j (n mod k)%nat); [nia|lia].
Qed.

Lemma div_mod_succ (n : nat) :
  ((n mod k + 1 < k)%nat /\ (S n / k = n / k)%nat /\ (S n mod k = n mod k + 1)%nat)
  \/ ((n mod k + 1 = k)%nat /\ (S n / k = n / k + 1)%nat /\ (S n mod k = 0)%nat).
Proof.
  assert (Hr : (n mod k < k)%nat) by (apply Nat.mod_upper_bound; lia).
  pose proof (Nat.div_mod_eq n k) as Hn.
  destruct (decide (n mod k + 1 < k)%nat) as [Hlt|Hge].
  - left. split; [done|]. split.
    + symmetry. apply (Nat.div_unique (S n) k (n / k)%nat (n mod k + 1)%nat); lia.
    + symmetry. apply (Nat.mod_unique (S n) k (n / k)%nat (n mod k + 1)%nat); lia.
  - right. split; [lia|]. split.
    + symmetry. apply (Nat.div_unique (S n) k (n / k + 1)%nat 0%nat); lia.
    + symmetry. apply (Nat.mod_unique (S n) k (n / k + 1)%nat 0%nat); lia.
Qed.

Lemma gridHeights_step (n : nat) :
  <[(n mod k)%nat := Z.of_nat (n / k) * d + d]> (gridHeights k d n)
  = gridHeights k d (S n).
Proof.
  assert (Hr : (n mod k < k)%nat) by (apply Nat.mod_upper_bound; lia).
  apply list_eq_same_length with k;
    [apply gridHeights_length|by rewrite length_insert, gridHeights_length|].
  intros c x y Hc Hx Hy. rewrite gridHeights_lookup in Hy by done.
  injection Hy as <-.
  destruct (decide (c = (n mod k)%nat)) as [->|Hne].
  - rewrite list_lookup_insert_eq in Hx by (by rewrite gridHeights_length).
    injection Hx as <-.
    destruct (div_mod_succ n) as [(H1 & -> & ->)|(H1 & -> & ->)];
      repeat match goal with
             | |- context [(?a <? ?b)%nat] => destruct (Nat.ltb_spec a b)
             end; lia.
  - rewrite list_lookup_insert_ne in Hx by done.
    rewrite gridHeights_lookup in Hx by done. injection Hx as <-.
    destruct (div_mod_succ n) as [(H1 & -> & ->)|(H1 & -> & ->)];
      repeat match goal with
             | |- context [(?a <? ?b)%nat] => destruct (Nat.ltb_spec a b)
             end; lia.
Qed.

Variable imageWidth : Z.

(** From grid accumulators, images that each add [d] go round the columns. *)
Lemma mapImages_grid (images : list ImageWithDimensions) :
  forall (n j : nat) (p : PositionedImage),
    Forall (fun im => heightFor imageWidth im + gap = d) images ->
    fst (mapImages imageWidth (gridHeights k d n) images) !! j = Some p ->
    column p = Z.of_nat ((n + j) mod k)
    /\ top p = Z.of_nat ((n + j) / k) * d.
Proof.
  induction images as [|im rest IH]; intros n j p Hall Hp; [done|].
  apply Forall_cons in Hall as [Him Hrest].
  rewrite mapImages_cons in Hp.
  assert (Hne : gridHeights k d n <> []).
  { intros E. apply (f_equal length) in E. rewrite gridHeights_length in E.
    simpl in E. lia. }
  destruct (placeImage_firstMin imageWidth (gridHeights k d n) im Hne)
    as (c & m & Hmin & Heq).
  destruct (firstMin_unique _ _ _ _ _ Hmin (gridHeights_firstMin n)) as [-> ->].
  rewrite Heq in Hp. cbn [fst snd] in Hp.
  destruct j as [|j].
  - cbn in Hp. injection Hp as <-. cbn [column top]. by rewrite Nat.add_0_r.
  - rewrite Him, gridHeights_step in Hp.
    change (fst (mapImages imageWidth (gridHeights k d (S n)) rest) !! j = Some p) in Hp.
    replace (n + S j)%nat with (S n + j)%nat by lia. by apply IH.
Qed.

End Grid.

(** X7. Images of one aspect ratio fill the grid row by row.  With at least
    one column and a non-negative column width, when all images have the
    same positive aspect ratio the [i]-th image is placed in column
    [i mod columnCount], on row [i / columnCount], at top
    row * (height + gap). *)
Theorem X7_equal_images_fill_rows (isFullscreen : bool) (innerWidth : Z)
    (images : list ImageWithDimensions) (columnCount : nat) (ratio : Q)
    (i : nat) (p : PositionedImage) :
  (1 <= columnCount)%nat ->
  0 <= imageWidthOf (containerMaxWidth isFullscreen innerWidth) columnCount ->
  (0 < ratio)%Q ->
  Forall (fun im => (aspectRatio im == ratio)%Q) images ->
  calculateWaterfallLayout isFullscreen innerWidth images columnCount !! i = Some p ->
  column p = Z.of_nat (i mod columnCount)
  /\ top p = Z.of_nat (i / columnCount) * (calculatedHeight p + gap).
Proof.
  intros Hk Hw Hratio Hall Hp. rewrite layout_run in Hp. unfold runLayout in Hp.
  set (w := imageWidthOf (containerMaxWidth isFullscreen innerWidth) columnCount) in *.
  set (h := JS.Math_round (Binary64.div (inject_Z w) ratio)).
  assert (Hh : forall im, (aspectRatio im == ratio)%Q -> heightFor w im = h).
  { intros im E. unfold heightFor, h, Binary64.div. f_equal. apply round_comp.
    by rewrite E. }
  assert (Hh0 : 0 <= h).
  { unfold h, Binary64.div. apply Math_round_nonneg, round_nonneg.
    unfold Qdiv. apply Qmult_le_0_compat.
    - change 0%Q with (inject_Z 0). by rewrite <- Zle_Qle.
    - by apply Qlt_le_weak, Qinv_lt_0_compat. }
  assert (Hd : 0 < h + gap) by (unfold gap; lia).
  rewrite <- (gridHeights_0 columnCount (h + gap)) in Hp by done.
  assert (Hph : calculatedHeight p = h).
  { pose proof (mapImages_width w images (gridHeights columnCount (h + gap) 0)) as Hwd.
    pose proof (mapImages_image w images (gridHeights columnCount (h + gap) 0)) as Him.
    rewrite Forall_forall in Hwd.
    destruct (Hwd p (list_elem_of_lookup_2 _ _ _ Hp)) as [_ ->]. apply Hh.
    rewrite Forall_forall in Hall. apply Hall.
    rewrite <- Him. apply list_elem_of_In, in_map, list_elem_of_In.
    by eapply list_elem_of_lookup_2. }
  rewrite Hph.
  apply (mapImages_grid columnCount (h + gap) Hk Hd w images 0 i p); [|done].
  eapply Forall_impl; [exact Hall|]. intros im E. cbv beta in E. by rewrite (Hh im E).
Qed.

Lemma X7_equal_images_fill_rows_witness :
  let p := {| image := img 100 100; column := 0; top := 324;
              calculatedHeight := 308; calculatedWidth := 308 |} in
  column p = Z.of_nat (2 mod 2)
  /\ top p = Z.of_nat (2 / 2) * (calculatedHeight p + gap).
Proof.
  intros p.
  apply (X7_equal_images_fill_rows false 664 [img 100 100; img 100 100; img 100 100]
           2 1%Q 2 p).
  - lia.
  - vm_compute. discriminate.
  - reflexivity.
  - repeat constructor.
  - reflexivity.
Defined.


(** ** Sorting *)

Section Sorting.

Context {A : Type}.
Variable compareFn : A -> A -> Z.

Lemma sortInsert_Permutation (x : A) (l : list A) : sortInsert compareFn x l ≡ₚ x :: l.
Proof.
  induction l as [|y l IH]; [done|]. simpl.
  destruct (0 <? compareFn y x); [done|].
  rewrite IH. apply Permutation_swap.
Qed.

Lemma foldl_sortInsert_Permutation (l : list A) :
  forall sorted,
    foldl (fun sorted x => sortInsert compareFn x sorted) sorted l ≡ₚ sorted ++ l.
Proof.
  induction l as [|x l IH]; intros acc; simpl.
  - by rewrite app_nil_r.
  - rewrite IH, sortInsert_Permutation. simpl.
    first [apply Permutation_middle | symmetry; apply Permutation_middle].
Qed.

Lemma Array_sort_Permutation (l : list A) : Array_sort compareFn l ≡ₚ l.
Proof. unfold Array_sort. by rewrite foldl_sortInsert_Permutation. Qed.

(** A comparator that is consistent: never greater both ways round, and
    transitive in its "not greater". *)
Hypothesis compare_anti : forall a b, 0 < compareFn a b -> compareFn b a <= 0.
Hypothesis compare_trans :
  forall a b c, compareFn a b <= 0 -> compareFn b c <= 0 -> compareFn a c <= 0.

Lemma sortInsert_sorted (x : A) (l : list A) :
  StronglySorted (notGreater compareFn) l -> StronglySorted (notGreater compareFn) (sortInsert compareFn x l).
Proof.
  induction 1 as [|y l Hl IH Hy]; simpl.
  - repeat constructor.
  - destruct (Z.ltb_spec 0 (compareFn y x)) as [Hgt|Hle].
    + constructor; [by constructor|]. constructor.
      * by apply compare_anti.
      * eapply Forall_impl; [exact Hy|]. intros z Hz.
        eapply compare_trans; [|exact Hz]. by apply compare_anti.
    + constructor; [done|].
      rewrite (sortInsert_Permutation x l). by constructor.
Qed.

Lemma foldl_sortInsert_sorted (l : list A) :
  forall sorted,
    StronglySorted (notGreater compareFn) sorted ->
    StronglySorted (notGreater compareFn)
      (foldl (fun sorted x => sortInsert compareFn x sorted) sorted l).
Proof.
  induction l as [|x l IH]; intros acc Hacc; [done|].
  simpl. apply IH. by apply sortInsert_sorted.
Qed.

Lemma Array_sort_sorted (l : list A) : StronglySorted (notGreater compareFn) (Array_sort compareFn l).
Proof. apply foldl_sortInsert_sorted. constructor. Qed.

(** Elements of one class, that compare equal among themselves, keep their
    order. *)
Variable inClass : A -> bool.
Hypothesis class_equal :
  forall a b, inClass a = true -> inClass b = true -> compareFn a b <= 0.

Lemma sorted_above_no_class (x y : A) (l : list A) :
  StronglySorted (notGreater compareFn) (y :: l) ->
  0 < compareFn y x ->
  inClass x = true ->
  List.filter inClass (y :: l) = [].
Proof.
  intros Hs Hgt Hx. apply StronglySorted_inv in Hs as [_ Hy].
  assert (Hall : Forall (fun z => inClass z = false) (y :: l)).
  { constructor.
    - destruct (inClass y) eqn:E; [|done].
      pose proof (class_equal y x E Hx). lia.
    - eapply Forall_impl; [exact Hy|]. intros z Hz.
      destruct (inClass z) eqn:E; [|done].
      pose proof (class_equal z x E Hx) as Hzx.
      pose proof (compare_trans y z x Hz Hzx). lia. }
  induction Hall as [|z zs Hz _ IH]; [done|]. simpl. by rewrite Hz.
Qed.

Lemma sortInsert_filter (x : A) (l : list A) :
  StronglySorted (notGreater compareFn) l ->
  List.filter inClass (sortInsert compareFn x l)
  = List.filter inClass l ++ (if inClass x then [x] else []).
Proof.
  induction 1 as [|y l Hl IH Hy].
  - simpl. by destruct (inClass x).
  - cbn [sortInsert]. destruct (Z.ltb_spec 0 (compareFn y x)) as [Hgt|Hle].
    + destruct (inClass x) eqn:Hx.
      * change (List.filter inClass (x :: y :: l))
          with (if inClass x then x :: List.filter inClass (y :: l)
                else List.filter inClass (y :: l)).
        rewrite Hx.
        rewrite (sorted_above_no_class x y l); [done|by constructor|done|done].
      * change (List.filter inClass (x :: y :: l))
          with (if inClass x then x :: List.filter inClass (y :: l)
                else List.filter inClass (y :: l)).
        rewrite Hx. by rewrite app_nil_r.
    + cbn [List.filter]. rewrite IH. by destruct (inClass y).
Qed.

Lemma foldl_sortInsert_filter (l : list A) :
  forall sorted,
    StronglySorted (notGreater compareFn) sorted ->
    List.filter inClass (foldl (fun sorted x => sortInsert compareFn x sorted) sorted l)
    = List.filter inClass sorted ++ List.filter inClass l.
Proof.
  induction l as [|x l IH]; intros acc Hacc; simpl.
  - by rewrite app_nil_r.
  - rewrite IH by (by apply sortInsert_sorted).
    rewrite sortInsert_filter by done. rewrite <- app_assoc. by destruct (inClass x).
Qed.

Lemma Array_sort_stable (l : list A) :
  List.filter inClass (Array_sort compareFn l) = List.filter inClass l.
Proof.
  unfold Array_sort. rewrite foldl_sortInsert_filter; [done|constructor].
Qed.

End Sorting.


Lemma StronglySorted_impl {A : Type} (R R' : A -> A -> Prop) (l : list A) :
  (forall a b, R a b -> R' a b) -> StronglySorted R l -> StronglySorted R' l.
Proof.
  intros HR. induction 1 as [|x l Hl IH Hx]; constructor; [done|].
  eapply Forall_impl; [exact Hx|]. intros y. apply HR.
Qed.

(** X8. Sorting loses and duplicates nothing: whatever the criterion, the
    order and the shuffled flag, [sortedImages] is a permutation of the
    filtered images it is given. *)
Theorem X8_sortedImages_permutation `{Platform} (filtered : list ImageWithDimensions)
    (sortCriteria : SortCriteria) (sortOrder : SortOrder) (isShuffled : bool) :
  sortedImages filtered sortCriteria sortOrder isShuffled ≡ₚ filtered
  /\ length (sortedImages filtered sortCriteria sortOrder isShuffled) = length filtered.
Proof.
  assert (Hperm : sortedImages filtered sortCriteria sortOrder isShuffled ≡ₚ filtered).
  { unfold sortedImages. destruct isShuffled; [done|apply Array_sort_Permutation]. }
  split; [done|]. by apply Permutation_length.
Qed.

Lemma sortedImages_ordered `{Platform} (filtered : list ImageWithDimensions)
    (sortOrder : SortOrder) :
  StronglySorted
    (fun a b => inOrder sortOrder (size (imageFile a)) (size (imageFile b)))
    (sortedImages filtered criteria_size sortOrder false)
  /\ StronglySorted
       (fun a b =>
          inOrder sortOrder (dateModified (imageFile a)) (dateModified (imageFile b)))
       (sortedImages filtered criteria_date sortOrder false).
Proof.
  unfold sortedImages. split.
  - apply (StronglySorted_impl (notGreater (compareImages criteria_size sortOrder))).
    + intros a b. unfold notGreater, compareImages, inOrder. destruct sortOrder; lia.
    + apply Array_sort_sorted; intros *; unfold compareImages; destruct sortOrder; lia.
  - apply (StronglySorted_impl (notGreater (compareImages criteria_date sortOrder))).
    + intros a b. unfold notGreater, compareImages, inOrder. destruct sortOrder; lia.
    + apply Array_sort_sorted; intros *; unfold compareImages; destruct sortOrder; lia.
Qed.

(** X9. Outside shuffle mode, sorting by size or by date puts the images in
    that order: ascending, every image is at most as large (as old) as all
    the images after it; descending, at least as large. *)
Theorem X9_sorted_by_size_and_date `{Platform} (filtered : list ImageWithDimensions)
    (sortOrder : SortOrder) :
  StronglySorted
    (fun a b => inOrder sortOrder (size (imageFile a)) (size (imageFile b)))
    (sortedImages filtered criteria_size sortOrder false)
  /\ StronglySorted
       (fun a b =>
          inOrder sortOrder (dateModified (imageFile a)) (dateModified (imageFile b)))
       (sortedImages filtered criteria_date sortOrder false).
Proof. apply sortedImages_ordered. Qed.

(** X10. The sort is stable for size and date: images of the same size (the
    same date) come out in the order they went in, ascending and
    descending alike. *)
Theorem X10_sort_keeps_order_of_equal_keys `{Platform}
    (filtered : list ImageWithDimensions) (sortOrder : SortOrder) (v : Z) :
  List.filter (withSize v) (sortedImages filtered criteria_size sortOrder false)
  = List.filter (withSize v) filtered
  /\ List.filter (withDate v) (sortedImages filtered criteria_date sortOrder false)
     = List.filter (withDate v) filtered.
Proof.
  unfold sortedImages. split.
  - apply Array_sort_stable.
    + intros *; unfold compareImages; destruct sortOrder; lia.
    + intros *; unfold compareImages; destruct sortOrder; lia.
    + intros a b Ha Hb. unfold withSize in *. apply Z.eqb_eq in Ha, Hb.
      unfold compareImages. destruct sortOrder; lia.
  - apply Array_sort_stable.
    + intros *; unfold compareImages; destruct sortOrder; lia.
    + intros *; unfold compareImages; destruct sortOrder; lia.
    + intros a b Ha Hb. unfold withDate in *. apply Z.eqb_eq in Ha, Hb.
      unfold compareImages. destruct sortOrder; lia.
Qed.

Example example_sort :
  map (fun im => (size (imageFile im), width im))
      (sortedImages [sizedImage 30 0 1 1; sizedImage 10 0 2 1; sizedImage 30 0 3 1;
                     sizedImage 20 0 4 1; sizedImage 10 0 5 1]
         criteria_size desc false)
  = [(30, 1); (30, 3); (20, 4); (10, 2); (10, 5)].
Proof. vm_compute. reflexivity. Qed.


(** ** From the imported files to the cards *)

Lemma loadDimensions_map (decode : ImageFile -> DecodeEvent) (images : list ImageFile) :
  loadDimensions decode images
  = map (fun imageFile => loadImageDimensions imageFile (decode imageFile)) images.
Proof. by destruct images. Qed.

Lemma loadDimensions_imageFile (decode : ImageFile -> DecodeEvent)
    (images : list ImageFile) :
  map imageFile (loadDimensions decode images) = images.
Proof.
  rewrite loadDimensions_map. induction images as [|f l IH]; [done|].
  simpl. rewrite IH. by destruct (decode f).
Qed.

Lemma filter_Permutation_bool {A : Type} (f : A -> bool) (l l' : list A) :
  l ≡ₚ l' -> List.filter f l ≡ₚ List.filter f l'.
Proof.
  induction 1 as [|x l l' _ IH|x y l|l l' l'' _ IH1 _ IH2]; simpl.
  - done.
  - destruct (f x); [by constructor|done].
  - destruct (f x), (f y); try done. apply Permutation_swap.
  - by etrans.
Qed.

Lemma filter_sublist_bool {A : Type} (f : A -> bool) (l : list A) :
  List.filter f l `sublist_of` l.
Proof.
  induction l as [|x l IH]; simpl; [constructor|].
  destruct (f x); by constructor.
Qed.

Lemma map_sublist {A B : Type} (f : A -> B) (l l' : list A) :
  l `sublist_of` l' -> map f l `sublist_of` map f l'.
Proof. induction 1; simpl; by constructor. Qed.

Lemma filteredImages_Permutation `{Platform} (l l' : list ImageWithDimensions)
    (searchTerm : string) :
  l ≡ₚ l' -> filteredImages l searchTerm ≡ₚ filteredImages l' searchTerm.
Proof.
  intros Hl. unfold filteredImages. destruct (String.eqb _ _); [done|].
  by apply filter_Permutation_bool.
Qed.

Lemma filteredImages_sublist `{Platform} (l : list ImageWithDimensions)
    (searchTerm : string) :
  filteredImages l searchTerm `sublist_of` l.
Proof.
  unfold filteredImages. destruct (String.eqb _ _); [done|].
  apply filter_sublist_bool.
Qed.

Lemma sortedImages_Permutation `{Platform} (filtered : list ImageWithDimensions)
    (sortCriteria : SortCriteria) (sortOrder : SortOrder) (isShuffled : bool) :
  sortedImages filtered sortCriteria sortOrder isShuffled ≡ₚ filtered.
Proof.
  unfold sortedImages. destruct isShuffled; [done|apply Array_sort_Permutation].
Qed.

Lemma shuffleImages_Permutation {A : Type} (random : nat -> Q) (l : list A) :
  randomInRange random -> shuffleImages random l ≡ₚ l.
Proof.
  intros Hr. unfold shuffleImages. apply shuffleLoop_Permutation; [exact Hr|].
  destruct l; [by right|left; simpl; lia].
Qed.

Lemma positionedImagesOf_image `{Platform} (decode : ImageFile -> DecodeEvent)
    (innerWidth : Z) (s : Page.State) :
  map image (Page.positionedImagesOf decode innerWidth s) = Page.sortedImagesOf decode s.
Proof.
  unfold Page.positionedImagesOf. rewrite layout_run. unfold runLayout.
  apply mapImages_image.
Qed.

Lemma positionedImagesFrom_image `{Platform}
    (imagesWithDimensions : list ImageWithDimensions) (innerWidth : Z) (s : Page.State) :
  map image (Page.positionedImagesFrom imagesWithDimensions innerWidth s)
  = Page.sortedImagesFrom imagesWithDimensions s.
Proof.
  unfold Page.positionedImagesFrom. rewrite layout_run. unfold runLayout.
  apply mapImages_image.
Qed.

(** The memos of the settled page are the memos at the value the effect
    stores for the current images. *)
Lemma positionedImagesOf_settled `{Platform} (decode : ImageFile -> DecodeEvent)
    (innerWidth : Z) (s : Page.State) :
  Page.sortedImagesOf decode s
  = Page.sortedImagesFrom (loadDimensions decode (Page.images s)) s
  /\ Page.positionedImagesOf decode innerWidth s
     = Page.positionedImagesFrom (loadDimensions decode (Page.images s)) innerWidth s.
Proof. split; reflexivity. Qed.

(** X11. Whatever the [imagesWithDimensions] state holds, the decodes of
    the current images or those of an earlier batch, every image on show
    has exactly one card and no card shows anything else: the images of the
    cards are the sorted images, in that order, and they are images of that
    state, none more often than it holds them. *)
Theorem X11_one_card_per_visible_image `{Platform}
    (imagesWithDimensions : list ImageWithDimensions) (innerWidth : Z) (s : Page.State) :
  map image (Page.positionedImagesFrom imagesWithDimensions innerWidth s)
  = Page.sortedImagesFrom imagesWithDimensions s
  /\ map image (Page.positionedImagesFrom imagesWithDimensions innerWidth s)
     ⊆+ imagesWithDimensions.
Proof.
  split; [apply positionedImagesFrom_image|].
  rewrite positionedImagesFrom_image. unfold Page.sortedImagesFrom.
  etrans; [apply Permutation_submseteq, sortedImages_Permutation|].
  apply sublist_submseteq, filteredImages_sublist.
Qed.

(** X12. With a blank search term nothing is left out: the images of the
    cards are a permutation of the [imagesWithDimensions] state; and when
    that state holds the decodes of the current images, every imported
    image is on show exactly once, whatever its decode answered and
    whatever the sort settings: the files of the cards are a permutation of
    the imported files. *)
Theorem X12_blank_search_shows_all `{Platform} (decode : ImageFile -> DecodeEvent)
    (imagesWithDimensions : list ImageWithDimensions) (innerWidth : Z) (s : Page.State) :
  trim (Page.searchTerm s) = ""%string ->
  imagesWithDimensions = loadDimensions decode (Page.images s) ->
  map image (Page.positionedImagesFrom imagesWithDimensions innerWidth s)
  ≡ₚ imagesWithDimensions
  /\ map imageFile (map image (Page.positionedImagesFrom imagesWithDimensions innerWidth s))
     ≡ₚ Page.images s.
Proof.
  intros Hblank Hsettled.
  assert (Hall : map image (Page.positionedImagesFrom imagesWithDimensions innerWidth s)
                 ≡ₚ imagesWithDimensions).
  { rewrite positionedImagesFrom_image. unfold Page.sortedImagesFrom.
    rewrite sortedImages_Permutation.
    unfold Page.filteredImagesFrom, filteredImages. by rewrite Hblank. }
  split; [exact Hall|].
  rewrite Hall, Hsettled. by rewrite loadDimensions_imageFile.
Qed.

(** X13. Shuffling changes the order of what is on show and nothing else:
    under any search term and sort settings the images shown after a
    shuffle are a permutation of the images shown before. *)
Theorem X13_shuffle_keeps_visible_images `{Platform} (decode : ImageFile -> DecodeEvent)
    (random : nat -> Q) (s : Page.State) :
  randomInRange random ->
  Page.sortedImagesOf decode (Page.shuffle random s) ≡ₚ Page.sortedImagesOf decode s.
Proof.
  intros Hr. unfold Page.sortedImagesOf. rewrite !sortedImages_Permutation.
  unfold Page.filteredImagesOf, Page.imagesWithDimensionsOf.
  cbn [Page.shuffle Page.setIsShuffled Page.setImages Page.images Page.searchTerm].
  apply filteredImages_Permutation. rewrite !loadDimensions_map.
  apply Permutation_map. by apply shuffleImages_Permutation.
Qed.


Lemma X12_blank_search_shows_all_witness :
  map image (Page.positionedImagesFrom
               (loadDimensions (decodeAll 4 3) (Page.images demoState)) 664 demoState)
  ≡ₚ loadDimensions (decodeAll 4 3) (Page.images demoState)
  /\ map imageFile
       (map image (Page.positionedImagesFrom
                     (loadDimensions (decodeAll 4 3) (Page.images demoState))
                     664 demoState))
     ≡ₚ Page.images demoState.
Proof.
  apply (X12_blank_search_shows_all (decodeAll 4 3)
           (loadDimensions (decodeAll 4 3) (Page.images demoState)) 664 demoState).
  - reflexivity.
  - reflexivity.
Defined.

Lemma X13_shuffle_keeps_visible_images_witness :
  Page.sortedImagesOf (decodeAll 4 3) (Page.shuffle (fun _ => (1 # 2)%Q) demoState)
  ≡ₚ Page.sortedImagesOf (decodeAll 4 3) demoState.
Proof.
  apply (X13_shuffle_keeps_visible_images (decodeAll 4 3) (fun _ => (1 # 2)%Q) demoState).
  intros n. split; reflexivity || discriminate.
Defined.

(** ** Invariants of the page *)

Lemma run_invariant `{Platform} (decode : ImageFile -> DecodeEvent)
    (P : Page.State -> Prop) :
  P Page.initial ->
  (forall s e, wellFormed e -> P s -> P (Page.step decode s e)) ->
  forall events, Forall wellFormed events -> P (Page.run decode events).
Proof.
  intros H0 Hstep events Hall. unfold Page.run.
  revert H0. generalize Page.initial.
  induction Hall as [|e events He _ IH]; intros s Hs; [done|].
  cbn [foldl]. apply IH. by apply Hstep.
Qed.

Lemma imageFilesOf_types (files : list BrowserFile) :
  Forall isImageType (imageFilesOf files).
Proof.
  unfold imageFilesOf. induction files as [|f files IH]; [constructor|].
  cbn [List.filter]. destruct (String.prefix "image/" (file_type f)) eqn:E; [|done].
  cbn [map]. constructor; [exact E|done].
Qed.

(** X14. The column count stays between 1 and 10 whatever the user does:
    after any sequence of events of the page, with slider values within
    the slider's range and a [parseInt] that reads the digit keys 1 to 9
    as numbers from 1 to 9.  So the layout always runs with at least one
    column. *)
Theorem X14_columnCount_between_1_and_10 `{Platform} (decode : ImageFile -> DecodeEvent)
    (events : list Page.Event) :
  (forall key, Page.isDigitKey (toLowerCase key) = true -> 1 <= parseInt key <= 9) ->
  Forall wellFormed events ->
  1 <= Page.columnCount (Page.run decode events) <= 10.
Proof.
  intros Hdigit Hall.
  apply (run_invariant decode (fun s => 1 <= Page.columnCount s <= 10));
    [simpl; lia| |exact Hall].
  intros s e He Hs. destruct e; cbn [Page.step wellFormed] in *;
    try (cbn; first [done | lia]).
  - unfold Page.handleKeyPress.
    repeat case_match; cbn; try done; try lia.
    pose proof (Hdigit key ltac:(done)). lia.
  - unfold Page.handleFileSelect. case_match; cbn; done.
  - unfold Page.handleDrop. repeat case_match; cbn; done.
  - unfold Page.handleDragEnter. case_match; cbn; done.
  - unfold Page.handleDragLeave. case_match; cbn; done.
  - unfold Page.goToNextImage. case_match; cbn; done.
  - unfold Page.goToPreviousImage. case_match; cbn; done.
Qed.

(** Events written out in an example are well formed. *)
Ltac solve_wellFormed :=
  repeat (apply List.Forall_cons;
          [first [ exact I
                 | by (intros n; split; [discriminate|reflexivity])
                 | by (cbn; lia) ] |]);
  apply List.Forall_nil.

(** The ASCII platform reads the digit keys as the theorem asks. *)
Lemma asciiPlatform_digit_keys (key : string) :
  Page.isDigitKey (toLowerCase key) = true -> 1 <= parseInt key <= 9.
Proof.
  intros Hkey. unfold Page.isDigitKey in Hkey.
  destruct key as [|c [|c' rest]]; [discriminate Hkey| |].
  - destruct c as [[] [] [] [] [] [] [] []];
      vm_compute in Hkey; try discriminate Hkey;
      vm_compute; split; discriminate.
  - exfalso. cbn in Hkey. repeat case_match; discriminate.
Qed.

Lemma X14_columnCount_between_1_and_10_witness :
  1 <= Page.columnCount
         (Page.run (decodeAll 4 3)
            [Page.KeyDown (fun _ => (1 # 2)%Q) false "7"; Page.SliderChange 3;
             Page.KeyDown (fun _ => (1 # 2)%Q) false "0"])
    <= 10.
Proof.
  apply (X14_columnCount_between_1_and_10 (decodeAll 4 3)
           [Page.KeyDown (fun _ => (1 # 2)%Q) false "7"; Page.SliderChange 3;
            Page.KeyDown (fun _ => (1 # 2)%Q) false "0"]).
  - exact asciiPlatform_digit_keys.
  - solve_wellFormed.
Defined.

(** X15. Only images enter the gallery: after any sequence of events, every
    image of the page has a type that starts with [image/], whatever files
    were selected or dropped. *)
Theorem X15_only_image_files `{Platform} (decode : ImageFile -> DecodeEvent)
    (events : list Page.Event) :
  Forall wellFormed events ->
  Forall isImageType (Page.images (Page.run decode events)).
Proof.
  intros Hall.
  apply (run_invariant decode (fun s => Forall isImageType (Page.images s)));
    [constructor| |exact Hall].
  intros s e He Hs. destruct e; cbn [Page.step wellFormed] in *; try (cbn; done).
  - unfold Page.handleKeyPress.
    repeat case_match; cbn; try done.
    eapply Permutation_Forall; [|exact Hs].
    symmetry. by apply shuffleImages_Permutation.
  - unfold Page.handleFileSelect. case_match; cbn; [|done].
    apply Forall_app. split; [done|apply imageFilesOf_types].
  - unfold Page.handleDrop. repeat case_match; cbn; try done.
    apply Forall_app. split; [done|apply imageFilesOf_types].
  - unfold Page.handleDragEnter. case_match; cbn; done.
  - unfold Page.handleDragLeave. case_match; cbn; done.
  - cbn. eapply Permutation_Forall; [|exact Hs].
    symmetry. by apply shuffleImages_Permutation.
  - unfold Page.goToNextImage. case_match; cbn; done.
  - unfold Page.goToPreviousImage. case_match; cbn; done.
Qed.

Lemma X15_only_image_files_witness :
  Forall isImageType
    (Page.images
       (Page.run (decodeAll 4 3)
          [Page.Drop (Some [textFile; pngFile "a"]);
           Page.ShuffleClick (fun _ => (1 # 2)%Q);
           Page.FileSelect (Some [pngFile "b"; textFile])])).
Proof.
  apply (X15_only_image_files (decodeAll 4 3)
           [Page.Drop (Some [textFile; pngFile "a"]);
            Page.ShuffleClick (fun _ => (1 # 2)%Q);
            Page.FileSelect (Some [pngFile "b"; textFile])]).
  solve_wellFormed.
Defined.


(** ** The preview *)

Lemma previewInRange_step (sortedLength : Z) (key : string) (s : Page.State) :
  (Page.isPreviewOpen s = true -> 0 <= Page.previewIndex s < sortedLength) ->
  Page.isPreviewOpen (ImagePreview.handleKeyPress sortedLength key s) = true ->
  0 <= Page.previewIndex (ImagePreview.handleKeyPress sortedLength key s) < sortedLength.
Proof.
  intros Hs. unfold ImagePreview.handleKeyPress.
  destruct (Page.isPreviewOpen s) eqn:Hopen; cbn [negb].
  2: { intros E. rewrite Hopen in E. discriminate. }
  specialize (Hs eq_refl).
  destruct (String.eqb key "Escape"); [cbn; discriminate|].
  destruct (String.eqb key "ArrowLeft").
  { unfold Page.goToPreviousImage. destruct (Z.ltb_spec 0 (Page.previewIndex s)); cbn; lia. }
  destruct (String.eqb key "ArrowRight").
  { unfold Page.goToNextImage.
    destruct (Z.ltb_spec (Page.previewIndex s) (sortedLength - 1)); cbn; lia. }
  done.
Qed.

Lemma arrayAt_in_range {A : Type} (l : list A) (i : Z) :
  0 <= i < Z.of_nat (length l) -> is_Some (arrayAt l i).
Proof.
  intros Hi. unfold arrayAt. destruct (Z.ltb_spec i 0); [lia|].
  apply lookup_lt_is_Some_2. lia.
Qed.

(** X16. The open preview always has an image to show.  Starting from a
    preview opened on an index of the sorted images, after any sequence of
    keys in the preview the preview is either closed or open on an index of
    the sorted images, where the component finds its current image and
    renders it. *)
Theorem X16_preview_stays_on_an_image {A : Type} (sorted : list A) (keys : list string)
    (s : Page.State) :
  Page.isPreviewOpen s = true ->
  0 <= Page.previewIndex s < Z.of_nat (length sorted) ->
  let s' :=
    foldl (fun s key => ImagePreview.handleKeyPress (Z.of_nat (length sorted)) key s)
          s keys in
  ImagePreview.rendered sorted (Page.previewIndex s') (Page.isPreviewOpen s')
  = Page.isPreviewOpen s'
  /\ (Page.isPreviewOpen s' = true ->
      0 <= Page.previewIndex s' < Z.of_nat (length sorted)).
Proof.
  intros Hopen Hidx s'.
  assert (Hinv : Page.isPreviewOpen s' = true ->
                 0 <= Page.previewIndex s' < Z.of_nat (length sorted)).
  { subst s'.
    assert (Hs : Page.isPreviewOpen s = true ->
                 0 <= Page.previewIndex s < Z.of_nat (length sorted)) by done.
    clear Hopen Hidx. revert s Hs.
    induction keys as [|key keys IH]; intros s Hs; [done|].
    cbn [foldl]. apply IH. by apply previewInRange_step. }
  split; [|done]. unfold ImagePreview.rendered, ImagePreview.currentImage.
  destruct (Page.isPreviewOpen s') eqn:E; [|done]. cbn [andb].
  apply bool_decide_eq_true. apply arrayAt_in_range. by apply Hinv.
Qed.

Lemma X16_preview_stays_on_an_image_witness :
  let sorted := [file0; file1; file2] in
  let s' :=
    foldl (fun s key => ImagePreview.handleKeyPress (Z.of_nat (length sorted)) key s)
          (Page.openPreview 1 Page.initial)
          ["ArrowRight"; "ArrowRight"; "ArrowRight"; "ArrowLeft"]%string in
  ImagePreview.rendered sorted (Page.previewIndex s') (Page.isPreviewOpen s')
  = Page.isPreviewOpen s'
  /\ (Page.isPreviewOpen s' = true ->
      0 <= Page.previewIndex s' < Z.of_nat (length sorted)).
Proof.
  apply (X16_preview_stays_on_an_image [file0; file1; file2]
           ["ArrowRight"; "ArrowRight"; "ArrowRight"; "ArrowLeft"]%string
           (Page.openPreview 1 Page.initial)).
  - reflexivity.
  - cbn. lia.
Defined.

(** X17. Next and Previous undo each other inside the list: from an index
    before the last image, Next then Previous gives back the state, and
    from an index after the first image (and within the list), Previous
    then Next does.  At the last image Next changes nothing, and at the
    first image Previous changes nothing. *)
Theorem X17_next_previous_round_trip (sortedLength : Z) (s : Page.State) :
  0 <= Page.previewIndex s < sortedLength ->
  (Page.previewIndex s < sortedLength - 1 ->
   Page.goToPreviousImage (Page.goToNextImage sortedLength s) = s)
  /\ (0 < Page.previewIndex s ->
      Page.goToNextImage sortedLength (Page.goToPreviousImage s) = s)
  /\ (Page.previewIndex s = sortedLength - 1 -> Page.goToNextImage sortedLength s = s)
  /\ (Page.previewIndex s = 0 -> Page.goToPreviousImage s = s).
Proof.
  intros Hidx. destruct s as [im st sc so sh cc dm dov fs idx op dc].
  cbn [Page.previewIndex] in *.
  unfold Page.goToNextImage, Page.goToPreviousImage.
  cbn [Page.previewIndex Page.setPreviewIndex].
  repeat split; intros H.
  - rewrite (proj2 (Z.ltb_lt idx (sortedLength - 1))) by lia.
    unfold Page.setPreviewIndex. cbn.
    rewrite (proj2 (Z.ltb_lt 0 (idx + 1))) by lia. f_equal. lia.
  - rewrite (proj2 (Z.ltb_lt 0 idx)) by lia.
    unfold Page.setPreviewIndex. cbn.
    rewrite (proj2 (Z.ltb_lt (idx - 1) (sortedLength - 1))) by lia. f_equal. lia.
  - by rewrite (proj2 (Z.ltb_ge idx (sortedLength - 1))) by lia.
  - by rewrite (proj2 (Z.ltb_ge 0 idx)) by lia.
Qed.

Lemma X17_next_previous_round_trip_witness :
  let s := Page.openPreview 1 Page.initial in
  (Page.previewIndex s < 3 - 1 ->
   Page.goToPreviousImage (Page.goToNextImage 3 s) = s)
  /\ (0 < Page.previewIndex s ->
      Page.goToNextImage 3 (Page.goToPreviousImage s) = s)
  /\ (Page.previewIndex s = 3 - 1 -> Page.goToNextImage 3 s = s)
  /\ (Page.previewIndex s = 0 -> Page.goToPreviousImage s = s).
Proof.
  apply (X17_next_previous_round_trip 3 (Page.openPreview 1 Page.initial)).
  cbn. lia.
Defined.

Lemma lookup_map_Some {A B : Type} (f : A -> B) (l : list A) (i : nat) (x : A) :
  l !! i = Some x -> map f l !! i = Some (f x).
Proof.
  revert i. induction l as [|y l IH]; intros [|i] H; try done.
  - cbn in *. by injection H as ->.
  - cbn in *. by apply IH.
Qed.

(** X18. A click on a card opens the preview on the image of that card:
    the preview is open, the sorted images it is given are the ones on
    show, and its current image is the image the clicked card was laid out
    for. *)
Theorem X18_click_previews_the_card `{Platform} (decode : ImageFile -> DecodeEvent)
    (innerWidth : Z) (s : Page.State) (index : nat) (card : PositionedImage) :
  Page.positionedImagesOf decode innerWidth s !! index = Some card ->
  let s' := Page.step decode s (Page.CardClick (Z.of_nat index)) in
  Page.sortedImagesOf decode s' = Page.sortedImagesOf decode s
  /\ ImagePreview.currentImage (Page.sortedImagesOf decode s') (Page.previewIndex s')
     = Some (image card)
  /\ ImagePreview.rendered (Page.sortedImagesOf decode s') (Page.previewIndex s')
       (Page.isPreviewOpen s') = true.
Proof.
  intros Hcard s'.
  assert (Hsame : Page.sortedImagesOf decode s' = Page.sortedImagesOf decode s) by done.
  assert (Hcur : ImagePreview.currentImage (Page.sortedImagesOf decode s')
                   (Page.previewIndex s') = Some (image card)).
  { rewrite Hsame. subst s'. cbn [Page.step Page.openPreview Page.previewIndex
                                    Page.setIsPreviewOpen Page.setPreviewIndex].
    unfold ImagePreview.currentImage, arrayAt.
    destruct (Z.ltb_spec (Z.of_nat index) 0); [lia|]. rewrite Nat2Z.id.
    rewrite <- (positionedImagesOf_image decode innerWidth s).
    by apply lookup_map_Some. }
  split; [done|]. split; [done|].
  unfold ImagePreview.rendered. rewrite Hcur. done.
Qed.


Lemma X18_click_previews_the_card_witness :
  let card :=
    {| image := loadImageDimensions
                  {| id := "a"; url := "a"; name := "a"; size := 10;
                     type := "image/png"; dateModified := 0 |} (onload 4 3);
       column := 0; top := 0; calculatedHeight := 85; calculatedWidth := 113 |} in
  let s' := Page.step (decodeAll 4 3) demoState (Page.CardClick (Z.of_nat 0)) in
  Page.sortedImagesOf (decodeAll 4 3) s' = Page.sortedImagesOf (decodeAll 4 3) demoState
  /\ ImagePreview.currentImage (Page.sortedImagesOf (decodeAll 4 3) s')
       (Page.previewIndex s')
     = Some (image card)
  /\ ImagePreview.rendered (Page.sortedImagesOf (decodeAll 4 3) s') (Page.previewIndex s')
       (Page.isPreviewOpen s') = true.
Proof.
  intros card.
  apply (X18_click_previews_the_card (decodeAll 4 3) 664 demoState 0 card).
  reflexivity.
Defined.

(** ** Dragging and dropping *)

Lemma drag_step `{Platform} (decode : ImageFile -> DecodeEvent) (s : Page.State)
    (e : Page.Event) :
  0 <= Page.dragCounter s ->
  0 <= Page.dragCounter (Page.step decode s e) ->
  (Page.isDragOver s = true -> 0 < Page.dragCounter s) ->
  Page.isDragOver (Page.step decode s e) = true ->
  0 < Page.dragCounter (Page.step decode s e).
Proof.
  intros H0 H1 Hinv.
  destruct e; cbn [Page.step] in *; try (cbn in *; done).
  - revert H1. unfold Page.handleKeyPress. repeat case_match; cbn; intros; auto.
  - revert H1. unfold Page.handleFileSelect. case_match; cbn; intros; auto.
  - revert H1. unfold Page.handleDrop. repeat case_match; cbn; intros; discriminate.
  - revert H1. unfold Page.handleDragEnter. case_match; cbn; intros; lia.
  - revert H1. unfold Page.handleDragLeave. cbn.
    destruct (Z.eqb_spec (Page.dragCounter s - 1) 0); cbn; intros; [discriminate|lia].
  - revert H1. unfold Page.goToNextImage. case_match; cbn; intros; auto.
  - revert H1. unfold Page.goToPreviousImage. case_match; cbn; intros; auto.
Qed.

(** X19. The drop overlay goes away when the drag has left.  As long as no
    [dragleave] arrives without a [dragenter] before it (the counter of
    entered elements never goes below 0), the overlay is on only while the
    counter is positive: once every entered element has been left, or the
    files have been dropped, the overlay is off. *)
Theorem X19_drag_overlay_needs_an_entered_element `{Platform}
    (decode : ImageFile -> DecodeEvent) (events : list Page.Event) :
  (forall n, 0 <= Page.dragCounter (Page.run decode (take n events))) ->
  Page.isDragOver (Page.run decode events) = true ->
  0 < Page.dragCounter (Page.run decode events).
Proof.
  induction events as [|e events IH] using rev_ind; intros Hnonneg.
  - cbn. discriminate.
  - unfold Page.run in *. rewrite foldl_snoc.
    apply drag_step.
    + specialize (Hnonneg (length events)). by rewrite take_app_length in Hnonneg.
    + specialize (Hnonneg (S (length events))).
      rewrite take_ge in Hnonneg by (rewrite length_app; simpl; lia).
      by rewrite foldl_snoc in Hnonneg.
    + apply IH. intros n. destruct (decide (n <= length events)%nat) as [Hn|Hn].
      * specialize (Hnonneg n). by rewrite take_app_le in Hnonneg by done.
      * rewrite take_ge by lia.
        specialize (Hnonneg (length events)). by rewrite take_app_length in Hnonneg.
Qed.

Lemma X19_drag_overlay_needs_an_entered_element_witness :
  0 < Page.dragCounter
        (Page.run (decodeAll 4 3)
           [Page.DragEnter true; Page.DragEnter true; Page.DragOver; Page.DragLeave]).
Proof.
  apply (X19_drag_overlay_needs_an_entered_element (decodeAll 4 3)
           [Page.DragEnter true; Page.DragEnter true; Page.DragOver; Page.DragLeave]).
  - intros [|[|[|[|[|n]]]]]; vm_compute; discriminate.
  - reflexivity.
Defined.

Lemma imageFilesOf_none (files : list BrowserFile) :
  Forall notImageFile files -> imageFilesOf files = [].
Proof.
  unfold imageFilesOf. induction 1 as [|f files Hf _ IH]; [done|].
  cbn [List.filter]. unfold notImageFile in Hf. by rewrite Hf.
Qed.

(** X20. Files that are no images change nothing in the gallery.  Dropped,
    they leave the images and the shuffled flag as they are and only end
    the drag; chosen in the file dialog, they leave the images as they are
    but end shuffle mode. *)
Theorem X20_non_image_files_add_nothing (files : list BrowserFile) (s : Page.State) :
  Forall notImageFile files ->
  (Page.images (Page.handleDrop (Some files) s) = Page.images s
   /\ Page.isShuffled (Page.handleDrop (Some files) s) = Page.isShuffled s
   /\ Page.isDragOver (Page.handleDrop (Some files) s) = false
   /\ Page.dragCounter (Page.handleDrop (Some files) s) = 0)
  /\ (Page.images (Page.handleFileSelect (Some files) s) = Page.images s
      /\ Page.isShuffled (Page.handleFileSelect (Some files) s) = false).
Proof.
  intros Hfiles. unfold Page.handleDrop, Page.handleFileSelect.
  rewrite (imageFilesOf_none files Hfiles). cbn. by rewrite app_nil_r.
Qed.

Lemma X20_non_image_files_add_nothing_witness :
  let s := Page.shuffle (fun _ => (1 # 2)%Q) demoState in
  (Page.images (Page.handleDrop (Some [textFile]) s) = Page.images s
   /\ Page.isShuffled (Page.handleDrop (Some [textFile]) s) = Page.isShuffled s
   /\ Page.isDragOver (Page.handleDrop (Some [textFile]) s) = false
   /\ Page.dragCounter (Page.handleDrop (Some [textFile]) s) = 0)
  /\ (Page.images (Page.handleFileSelect (Some [textFile]) s) = Page.images s
      /\ Page.isShuffled (Page.handleFileSelect (Some [textFile]) s) = false).
Proof.
  apply (X20_non_image_files_add_nothing [textFile]
           (Page.shuffle (fun _ => (1 # 2)%Q) demoState)).
  repeat constructor.
Defined.

(** X21. The content is as wide as the container allows.  For a non-empty
    gallery with at least one column and a column width other than 0, the
    content width is at most the container width and falls short of it by
    less than one pixel per column. *)
Theorem X21_content_width_fills_container (isFullscreen : bool) (innerWidth : Z)
    (images : list ImageWithDimensions) (columnCount : nat) :
  images <> [] ->
  (1 <= columnCount)%nat ->
  imageWidthOf (containerMaxWidth isFullscreen innerWidth) columnCount <> 0 ->
  containerMaxWidth isFullscreen innerWidth - Z.of_nat columnCount
  < containerWidth (calculateWaterfallLayout isFullscreen innerWidth images columnCount)
      columnCount
  <= containerMaxWidth isFullscreen innerWidth.
Proof.
  intros Hne Hk Hw. rewrite layout_run. unfold runLayout.
  destruct images as [|im rest]; [done|].
  rewrite mapImages_cons. cbn [fst]. unfold containerWidth, placeImage.
  cbn [fst calculatedWidth].
  set (cw := containerMaxWidth isFullscreen innerWidth) in *.
  destruct (Z.eqb_spec (imageWidthOf cw columnCount) 0) as [E|_]; [done|].
  unfold imageWidthOf, availableWidth, gap in *.
  set (a := cw - 16 * (Z.of_nat columnCount - 1)) in *.
  pose proof (Z.div_mod a (Z.of_nat columnCount) ltac:(lia)) as Hdm.
  pose proof (Z.mod_pos_bound a (Z.of_nat columnCount) ltac:(lia)) as Hmod.
  nia.
Qed.

Lemma X21_content_width_fills_container_witness :
  containerMaxWidth false 700 - Z.of_nat 3
  < containerWidth (calculateWaterfallLayout false 700 exampleImages 3) 3
  <= containerMaxWidth false 700.
Proof.
  apply (X21_content_width_fills_container false 700 exampleImages 3).
  - discriminate.
  - lia.
  - vm_compute. discriminate.
Defined.

(** ** The page, evaluated on the ASCII platform *)

Example example_import :
  map name (Page.images demoState) = ["b"; "a"]%string
  /\ map (fun im => name (imageFile im)) (Page.sortedImagesOf (decodeAll 4 3) demoState)
     = ["a"; "b"]%string
  /\ map geometry (Page.positionedImagesOf (decodeAll 4 3) 664 demoState)
     = [(0, 0, 85, 113); (1, 0, 85, 113)].
Proof. vm_compute. done. Qed.

Example example_hotkeys :
  let s := Page.run (decodeAll 4 3)
             [Page.FileSelect (Some [pngFile "b"; pngFile "a"]);
              Page.KeyDown (fun _ => (1 # 2)%Q) false "S";
              Page.KeyDown (fun _ => (1 # 2)%Q) false "0";
              Page.KeyDown (fun _ => (1 # 2)%Q) true "3";
              Page.KeyDown (fun _ => (1 # 2)%Q) false "f"] in
  Page.isShuffled s = true /\ Page.columnCount s = 10 /\ Page.isFullscreen s = true.
Proof. vm_compute. done. Qed.

(** The term is trimmed only to see whether it is blank: it is matched with
    its spaces. *)
Example example_search :
  map (fun im => name (imageFile im))
      (Page.sortedImagesOf (decodeAll 4 3) (Page.setSearchTerm "B" demoState))
  = ["b"]%string
  /\ Page.sortedImagesOf (decodeAll 4 3) (Page.setSearchTerm " B " demoState) = []
  /\ length (Page.sortedImagesOf (decodeAll 4 3) (Page.setSearchTerm "  " demoState))
     = 2%nat.
Proof. vm_compute. done. Qed.

(** The cards can show what is no longer imported.  After a reset while
    the decodes of an import are under way [images] is empty; when those
    decodes answer, the effect stores their images, and the memos make
    cards of them. *)
Example example_stale_decode :
  let decoded := loadDimensions (decodeAll 4 3) (Page.images demoState) in
  let s := Page.handleReset demoState in
  Page.images s = []
  /\ map (fun p => name (imageFile (image p))) (Page.positionedImagesFrom decoded 664 s)
     = ["a"; "b"]%string.
Proof. vm_compute. done. Qed.


(** X22. The sort controls take the page out of shuffle mode.  From any
    state, shuffled or not, choosing the criterion size (date) shows the
    images ordered by size (date) in the current order, and pressing the
    order button while the criterion is size (date) shows them ordered in
    the opposite order. *)
Theorem X22_sort_controls_override_shuffle `{Platform} (decode : ImageFile -> DecodeEvent)
    (s : Page.State) :
  StronglySorted
    (fun a b => inOrder (Page.sortOrder s) (size (imageFile a)) (size (imageFile b)))
    (Page.sortedImagesOf decode (Page.handleSortChange criteria_size s))
  /\ StronglySorted
       (fun a b => inOrder (Page.sortOrder s)
                     (dateModified (imageFile a)) (dateModified (imageFile b)))
       (Page.sortedImagesOf decode (Page.handleSortChange criteria_date s))
  /\ (Page.sortCriteria s = criteria_size ->
      StronglySorted
        (fun a b => inOrder (flipped (Page.sortOrder s))
                      (size (imageFile a)) (size (imageFile b)))
        (Page.sortedImagesOf decode (Page.toggleSortOrder s)))
  /\ (Page.sortCriteria s = criteria_date ->
      StronglySorted
        (fun a b => inOrder (flipped (Page.sortOrder s))
                      (dateModified (imageFile a)) (dateModified (imageFile b)))
        (Page.sortedImagesOf decode (Page.toggleSortOrder s))).
Proof.
  unfold Page.sortedImagesOf, Page.handleSortChange, Page.toggleSortOrder.
  cbn [Page.setIsShuffled Page.setSortCriteria Page.setSortOrder Page.sortCriteria
       Page.sortOrder Page.isShuffled].
  repeat split.
  - apply sortedImages_ordered.
  - apply sortedImages_ordered.
  - intros ->. apply (sortedImages_ordered _ (flipped (Page.sortOrder s))).
  - intros ->. apply (sortedImages_ordered _ (flipped (Page.sortOrder s))).
Qed.

Lemma X22_sort_controls_override_shuffle_witness :
  let s := Page.handleSortChange criteria_size
             (Page.shuffle (fun _ => (1 # 2)%Q) demoState) in
  StronglySorted
    (fun a b => inOrder (flipped (Page.sortOrder s))
                  (size (imageFile a)) (size (imageFile b)))
    (Page.sortedImagesOf (decodeAll 4 3) (Page.toggleSortOrder s)).
Proof.
  intros s.
  apply (proj1 (proj2 (proj2 (X22_sort_controls_override_shuffle (decodeAll 4 3) s)))).
  reflexivity.
Defined.
